(** * amazon-scraper: a shallow embedding of [index.js]

    The development follows the source file class by class:
    [KeywordValidator], [AmazonUrlBuilder], [AmazonHttpClient],
    [AmazonHtmlParser], [Cache] and [AmazonScraperService].

    JavaScript strings are sequences of UTF-16 code units, numbers that stay
    integral are [Z] or [nat], a [Map] is a [gmap], thrown exceptions are an
    explicit [completion], and the effects of the service (the wire, timers,
    the clock, the console, the heap of result arrays) live in a state record
    that is passed along. *)

From Stdlib Require Import ZArith NArith QArith Qpower Qcanon Lia Ascii String.
From stdpp Require Import base option list strings pretty gmap.

Set Default Proof Using "Type".

(** ** Strings *)

(** A UTF-16 code unit. *)
Definition char := N.

(** A JavaScript string. [length] is the [.length] property. *)
Definition jsstring := list char.

(** Source literals are written as Rocq strings and read as code units. *)
Fixpoint js (s : string) : jsstring :=
  match s with
  | EmptyString => []
  | String a rest => N_of_ascii a :: js rest
  end.

Definition in_range (lo hi c : N) : bool := (lo <=? c)%N && (c <=? hi)%N.

(** [\d] *)
Definition is_digit (c : char) : bool := in_range 48 57 c.

(** [\w]: [A-Za-z0-9_] *)
Definition is_word (c : char) : bool :=
  in_range 65 90 c || in_range 97 122 c || is_digit c || (c =? 95)%N.

(** [\s]: WhiteSpace and LineTerminator of ECMAScript; the same set is
    stripped by [String.prototype.trim]. *)
Definition is_space (c : char) : bool :=
  in_range 9 13 c || (c =? 32)%N || (c =? 160)%N || (c =? 5760)%N
  || in_range 8192 8202 c || (c =? 8232)%N || (c =? 8233)%N
  || (c =? 8239)%N || (c =? 8287)%N || (c =? 12288)%N || (c =? 65279)%N.

Definition is_hyphen (c : char) : bool := (c =? 45)%N.

Fixpoint trimStart (s : jsstring) : jsstring :=
  match s with
  | c :: rest => if is_space c then trimStart rest else s
  | [] => []
  end.

Definition trimEnd (s : jsstring) : jsstring := rev (trimStart (rev s)).

(** [String.prototype.trim] *)
Definition trim (s : jsstring) : jsstring := trimEnd (trimStart s).

(** ** Regular expressions

    A backtracking matcher for the fragment of the regular expressions that
    the source uses.  [run] lists the ways a pattern can match at a position,
    in the order the engine tries them (greedy first). *)

Inductive regex :=
  | Bol                                   (* ^ *)
  | Eol                                   (* $ *)
  | Class (p : char -> bool)              (* [...] or an escape such as \s *)
  | Lit (l : jsstring)                    (* literal characters *)
  | Plus (p : char -> bool)               (* [...]+, greedy *)
  | Seq (r1 r2 : regex)
  | Group (r : regex).                    (* ( ... ) *)

Record mstate := MState {
  pos : nat;                  (* index of the next character *)
  rest : jsstring;            (* input from [pos] on *)
  groups : list jsstring      (* captures so far, in order *)
}.

Definition advance (n : nat) (s : mstate) : mstate :=
  MState (pos s + n) (drop n (rest s)) (groups s).

Fixpoint is_prefix (l s : jsstring) : bool :=
  match l, s with
  | [], _ => true
  | a :: l', b :: s' => (a =? b)%N && is_prefix l' s'
  | _ :: _, [] => false
  end.

(** The numbers of characters [p+] may take, longest first. *)
Fixpoint plus_lengths (p : char -> bool) (s : jsstring) : list nat :=
  match s with
  | c :: t => if p c then map S (plus_lengths p t) ++ [1] else []
  | [] => []
  end.

Fixpoint run (r : regex) (s : mstate) : list mstate :=
  match r with
  | Bol => if (pos s =? 0)%nat then [s] else []
  | Eol => match rest s with [] => [s] | _ :: _ => [] end
  | Class p =>
      match rest s with
      | c :: _ => if p c then [advance 1 s] else []
      | [] => []
      end
  | Lit l => if is_prefix l (rest s) then [advance (length l) s] else []
  | Plus p => map (fun n => advance n s) (plus_lengths p (rest s))
  | Seq r1 r2 => flat_map (run r2) (run r1 s)
  | Group r0 =>
      map (fun s' => MState (pos s') (rest s')
                       (groups s' ++ [take (pos s' - pos s) (rest s)]))
          (run r0 s)
  end.

(** The match array of [exec]: the whole match, then the captures. *)
Definition match_at (r : regex) (start : nat) (input : jsstring)
  : option (list jsstring) :=
  match run r (MState start input []) with
  | s' :: _ => Some (take (pos s' - start) input :: groups s')
  | [] => None
  end.

(** [RegExp.prototype.exec] of a regex without the [g] flag: the leftmost
    start position at which the pattern matches. *)
Fixpoint exec_from (r : regex) (start : nat) (input : jsstring)
  : option (list jsstring) :=
  match match_at r start input with
  | Some m => Some m
  | None =>
      match input with
      | [] => None
      | _ :: t => exec_from r (S start) t
      end
  end.

Definition exec (r : regex) (input : jsstring) : option (list jsstring) :=
  exec_from r 0 input.

(** [RegExp.prototype.test] *)
Definition test (r : regex) (input : jsstring) : bool :=
  match exec r input with Some _ => true | None => false end.

(** [s.replace(/[...]/g, repl)] for a pattern that is one character class. *)
Definition replace_all (p : char -> bool) (repl : jsstring) (s : jsstring)
  : jsstring :=
  flat_map (fun c => if p c then repl else [c]) s.

(** ** Exceptions *)

(** What is thrown.  [Error] stands for the errors that are neither a
    [ValidationError] nor the [URIError] of [encodeURIComponent]: those
    [fetchHtml] makes with [new Error], and the [TypeError] of [String]
    on an object that has no primitive value. *)
Inductive exception :=
  | ValidationError (message : string)
  | Error (message : string)
  | URIError.

(** The outcome of evaluating an expression or running a function body. *)
Inductive completion (A : Type) :=
  | Normal (a : A)
  | Throw (e : exception).
Arguments Normal {A} a.
Arguments Throw {A} e.

Definition cbind {A B} (c : completion A) (k : A -> completion B)
  : completion B :=
  match c with
  | Normal a => k a
  | Throw e => Throw e
  end.

Global Instance completion_ret : MRet completion := @Normal.
Global Instance completion_bind : MBind completion :=
  fun A B k c => cbind c k.

(** ** KeywordValidator *)

Definition MAX_KEYWORD_LENGTH : nat := 50.

(** [/^[\w\s-]+$/] *)
Definition allowed (c : char) : bool := is_word c || is_space c || is_hyphen c.
Definition KEYWORD_REGEX : regex := Seq Bol (Seq (Plus allowed) Eol).

Module KeywordValidator.

(** [validate(keyword)]; [None] is an absent ([undefined] or [null])
    argument. *)
Definition validate (keyword : option jsstring) : completion jsstring :=
  match keyword with
  | None | Some [] => Throw (ValidationError "Keyword is required")
  | Some k =>
      if (MAX_KEYWORD_LENGTH <? length k)%nat then
        Throw (ValidationError
                 ("Keyword must be at most " +:+ pretty MAX_KEYWORD_LENGTH
                  +:+ " characters"))
      else if negb (test KEYWORD_REGEX k) then
        Throw (ValidationError "Keyword contains invalid characters")
      else Normal (trim k)
  end.

End KeywordValidator.

(** ** AmazonUrlBuilder *)

(** The characters [encodeURIComponent] leaves alone:
    [A-Za-z0-9] and [- _ . ! ~ * ' ( )]. *)
Definition uri_unreserved (c : char) : bool :=
  in_range 65 90 c || in_range 97 122 c || is_digit c
  || (c =? 45)%N || (c =? 95)%N || (c =? 46)%N || (c =? 33)%N
  || (c =? 126)%N || (c =? 42)%N || (c =? 39)%N || (c =? 40)%N
  || (c =? 41)%N.

Definition hex_digit (n : N) : char :=
  if (n <? 10)%N then (48 + n)%N else (55 + n)%N.

(** [%XX] for one octet. *)
Definition percent (b : N) : jsstring :=
  [37%N; hex_digit (b / 16); hex_digit (b mod 16)].

(** The UTF-8 octets of a code point. *)
Definition utf8 (cp : N) : list N :=
  if (cp <? 128)%N then [cp]
  else if (cp <? 2048)%N then [192 + cp / 64; 128 + cp mod 64]%N
  else if (cp <? 65536)%N then
    [224 + cp / 4096; 128 + (cp / 64) mod 64; 128 + cp mod 64]%N
  else
    [240 + cp / 262144; 128 + (cp / 4096) mod 64;
     128 + (cp / 64) mod 64; 128 + cp mod 64]%N.

Definition is_lead_surrogate (c : char) : bool := in_range 55296 56319 c.
Definition is_trail_surrogate (c : char) : bool := in_range 56320 57343 c.

(** [encodeURIComponent]; a lone surrogate raises [URIError]. *)
Fixpoint encodeURIComponent (s : jsstring) : completion jsstring :=
  match s with
  | [] => Normal []
  | c :: t =>
      if uri_unreserved c then
        out ← encodeURIComponent t; Normal (c :: out)
      else if is_trail_surrogate c then Throw URIError
      else if is_lead_surrogate c then
        match t with
        | d :: t' =>
            if is_trail_surrogate d then
              out ← encodeURIComponent t';
              Normal (flat_map percent
                        (utf8 ((c - 55296) * 1024 + (d - 56320) + 65536)%N)
                      ++ out)
            else Throw URIError
        | [] => Throw URIError
        end
      else
        out ← encodeURIComponent t;
        Normal (flat_map percent (utf8 c) ++ out)
  end.

Module AmazonUrlBuilder.

Definition build (keyword : jsstring) : completion jsstring :=
  q ← encodeURIComponent keyword;
  Normal (js "https://www.amazon.com/s?k=" ++ q).

End AmazonUrlBuilder.

Open Scope Z_scope.

(** ** The network

    What a server sends back for one request that goes over the wire, or the
    failure of the transport (connection error, the 10 s [timeout], a body
    over [maxContentLength]), which leaves axios without a response. *)

Record Response := {
  status : Z;
  location : option jsstring;   (* the Location header, resolved *)
  data : jsstring               (* the body, as text *)
}.

Inductive Reply :=
  | Answered (r : Response)
  | Dropped (message : string).

(** The remote side: the reply to the [n]-th request put on the wire, and
    the time in milliseconds that request takes. *)
Record Upstream := {
  reply : nat -> jsstring -> Reply;
  latency : nat -> Z
}.

(** What the process has done to the outside, and the clock it reads. *)
Record World := {
  requests : list jsstring;     (* URLs requested, oldest first *)
  sleeps : list Z;              (* delays of the timers awaited, oldest first *)
  clock : Z                     (* [Date.now()] *)
}.

Definition sleep (ms : Z) (w : World) : World :=
  {| requests := requests w; sleeps := sleeps w ++ [ms];
     clock := clock w + Z.max 0 ms |}.

(** ** axios *)

Record AxiosConfig := {
  timeout : Z;
  maxRedirects : nat;
  validateStatus : Z -> bool;
  maxContentLength : Z
}.

(** The rejection value: [err.response] is set only when a response arrived
    and its status was refused by [validateStatus]. *)
Record AxiosError := {
  response : option Response;
  message : string
}.

Section Axios.

Variable up : Upstream.

Definition send (url : jsstring) (w : World) : World * Reply :=
  let n := length (requests w) in
  ({| requests := requests w ++ [url]; sleeps := sleeps w;
      clock := clock w + latency up n |},
   reply up n url).

(** The transport follows a 3xx response that names a Location, up to
    [maxRedirects] times; one redirect more is a transport failure. *)
Fixpoint follow (budget : nat) (url : jsstring) (w : World)
  : World * Reply :=
  let '(w1, r) := send url w in
  match r with
  | Dropped _ => (w1, r)
  | Answered resp =>
      match location resp with
      | Some target =>
          if (300 <=? status resp) && (status resp <? 400) then
            match budget with
            | S b => follow b target w1
            | O => (w1, Dropped "Maximum number of redirects exceeded")
            end
          else (w1, r)
      | None => (w1, r)
      end
  end.

(** [axios.get(url, config)]: the promise resolves when [validateStatus]
    accepts the status of the final response and rejects otherwise. *)
Definition axios_get (config : AxiosConfig) (url : jsstring) (w : World)
  : World * (Response + AxiosError) :=
  let '(w1, r) := follow (maxRedirects config) url w in
  match r with
  | Dropped m => (w1, inr {| response := None; message := m |})
  | Answered resp =>
      if (status resp =? 0) || validateStatus config (status resp) then
        (w1, inl resp)
      else
        (w1, inr {| response := Some resp;
                    message := "Request failed with status code "
                               +:+ pretty (status resp) |})
  end.

End Axios.

(** ** AmazonHttpClient *)

Record AmazonHttpClient := {
  userAgent : jsstring;
  maxRetries : nat;
  retryDelay : Z
}.

(** [new AmazonHttpClient(userAgent)] with the default arguments. *)
Definition new_AmazonHttpClient (userAgent : jsstring) : AmazonHttpClient :=
  {| userAgent := userAgent; maxRetries := 3; retryDelay := 1000 |}.

(** The options object of the [axios.get] call. *)
Definition fetch_config : AxiosConfig :=
  {| timeout := 10000;
     maxRedirects := 5;
     validateStatus := fun status => (200 <=? status) && (status <? 400);
     maxContentLength := 2000000 |}.

(** [err.response?.status] is a number or [undefined] ([None]). *)
Definition truthy_status (status : option Z) : bool :=
  match status with Some s => negb (s =? 0) | None => false end.

(** [status >= n] and [status < n]; both are false for [undefined]. *)
Definition at_least (n : Z) (status : option Z) : bool :=
  match status with Some s => n <=? s | None => false end.
Definition below (n : Z) (status : option Z) : bool :=
  match status with Some s => s <? n | None => false end.

(** The status inside a template literal. *)
Definition show_status (status : option Z) : string :=
  match status with Some s => pretty s | None => "undefined" end.

Section HttpClient.

Variable up : Upstream.
Variable this : AmazonHttpClient.

(** The [while] loop of [fetchHtml], one iteration per unit of fuel, from
    the loop test on.  [Some None] is the [undefined] a fall through the
    loop would return. *)
Fixpoint fetch_loop (fuel : nat) (url : jsstring) (attempt : nat)
    (w : World) : option (World * completion (option jsstring)) :=
  match fuel with
  | O => None
  | S fuel' =>
      if (attempt <=? maxRetries this)%nat then
        match axios_get up fetch_config url w with
        | (w1, inl response) => Some (w1, Normal (Some (data response)))
        | (w1, inr err) =>
            let status := status <$> response err in
            if truthy_status status && at_least 300 status
               && below 400 status then
              Some (w1, Throw (Error ("Redirect blocked (status "
                                      +:+ show_status status +:+ ")")))
            else if bool_decide (status = Some 503) then
              let attempt := S attempt in
              if (maxRetries this <? attempt)%nat then
                Some (w1, Throw (Error ("Failed after "
                                        +:+ pretty (maxRetries this)
                                        +:+ " retries: " +:+ message err)))
              else
                fetch_loop fuel' url attempt
                  (sleep (retryDelay this * Z.of_nat attempt) w1)
            else
              Some (w1, Throw (Error ("Failed to fetch HTML: "
                                      +:+ (if truthy_status status
                                           then show_status status
                                           else message err))))
        end
      else Some (w, Normal None)
  end.

(** [fetchHtml(url)]: [attempt] starts at 0; every iteration but the last
    possible one may go round again, so [maxRetries + 1] iterations are
    all the loop can make. *)
Definition fetchHtml (url : jsstring) (w : World)
  : option (World * completion (option jsstring)) :=
  fetch_loop (S (maxRetries this)) url 0 w.

End HttpClient.

(** ** Numbers

    A JavaScript number that does not stay integral: a double.  A finite
    double other than the negative zero is kept as the rational it is
    equal to, in lowest terms. *)

Inductive number :=
  | NaN
  | Fin (q : Q)
  | NegZero
  | Infinity (negative : bool).

(** [a / b] rounded to the nearest integer, a tie going to the even one. *)
Definition round_half_even (a b : Z) : Z :=
  let t := a / b in
  match 2 * (a mod b) ?= b with
  | Lt => t
  | Gt => t + 1
  | Eq => if Z.even t then t else t + 1
  end.

(** The Number value for a rational that is not negative: the nearest
    double, a tie going to the even significand.  [e] is the binary
    exponent of [q]; the significand has 53 bits, fewer below 2^-1022, and
    a result of 2^1024 or more is [Infinity]. *)
Definition to_double (q : Q) : number :=
  let n := Qnum q in
  let d := Zpos (Qden q) in
  if n <=? 0 then Fin 0
  else
    let e0 := Z.log2 n - Z.log2 d in
    let e := if n * 2 ^ Z.max 0 (- e0) <? d * 2 ^ Z.max 0 e0
             then e0 - 1 else e0 in
    let E := Z.max (e - 52) (-1074) in
    let m := round_half_even (n * 2 ^ Z.max 0 (- E)) (d * 2 ^ Z.max 0 E) in
    if (0 <=? E) && (2 ^ 1024 <=? m * 2 ^ E) then Infinity false
    else Fin (Qred (inject_Z m * Qpower 2 E)).

Definition digit_val (c : char) : Z := Z.of_N c - 48.

Fixpoint digits_val (acc : Z) (s : jsstring) : Z :=
  match s with
  | c :: t => digits_val (10 * acc + digit_val c) t
  | [] => acc
  end.

Fixpoint take_while (p : char -> bool) (s : jsstring) : jsstring :=
  match s with
  | c :: t => if p c then c :: take_while p t else []
  | [] => []
  end.

Fixpoint drop_while (p : char -> bool) (s : jsstring) : jsstring :=
  match s with
  | c :: t => if p c then drop_while p t else s
  | [] => []
  end.

(** An optional [+] or [-]: whether it was [-], and what follows. *)
Definition read_sign (s : jsstring) : bool * jsstring :=
  match s with
  | c :: t =>
      if (c =? 45)%N then (true, t)
      else if (c =? 43)%N then (false, t)
      else (false, s)
  | [] => (false, [])
  end.

(** A number with the sign read in front of it. *)
Definition signed (negative : bool) (x : number) : number :=
  if negative then
    match x with
    | NaN => NaN
    | Fin q => if Qeq_bool q 0 then NegZero else Fin (Qopp q)
    | NegZero => Fin 0
    | Infinity b => Infinity (negb b)
    end
  else x.

(** The exponent part [e±digits] at the head of [s], 0 when there is none. *)
Definition read_exponent (s : jsstring) : Z :=
  match s with
  | c :: t =>
      if (c =? 101)%N || (c =? 69)%N then
        let '(negative, t1) := read_sign t in
        match take_while is_digit t1 with
        | [] => 0
        | ds => if negative then - digits_val 0 ds else digits_val 0 ds
        end
      else 0
  | [] => 0
  end.

(** [parseFloat(string)]: the longest prefix, after leading white space,
    that is a decimal literal, as the double nearest to its value. *)
Definition parseFloat (s : jsstring) : number :=
  let '(negative, s2) := read_sign (trimStart s) in
  if is_prefix (js "Infinity") s2 then Infinity negative
  else
    let ip := take_while is_digit s2 in
    let s3 := drop_while is_digit s2 in
    let '(fp, s4) :=
      match s3 with
      | c :: t =>
          if (c =? 46)%N then (take_while is_digit t, drop_while is_digit t)
          else ([], s3)
      | [] => ([], [])
      end in
    match ip ++ fp with
    | [] => NaN
    | ds =>
        signed negative
          (to_double
             (inject_Z (digits_val 0 ds)
              * Qpower 10 (read_exponent s4 - Z.of_nat (length fp))))
    end.

(** [parseInt(string, 10)]: the leading digits, as the double nearest to
    the integer they spell. *)
Definition parseInt10 (s : jsstring) : number :=
  let '(negative, s2) := read_sign (trimStart s) in
  match take_while is_digit s2 with
  | [] => NaN
  | ds => signed negative (to_double (inject_Z (digits_val 0 ds)))
  end.

(** ** The DOM *)

Definition attributes := list (jsstring * jsstring).

Unset Elimination Schemes.
Inductive Node :=
  | TextNode (text : jsstring)
  | CommentNode (text : jsstring)
  | ElementNode (tag : jsstring) (attrs : attributes) (children : list Node).
Set Elimination Schemes.

(** An element together with the start tags it sits in, nearest first:
    a selector looks at the ancestors too. *)
Record Element := {
  ancestors : list (jsstring * attributes);
  tag : jsstring;
  attrs : attributes;
  children : list Node
}.

Definition getAttribute (name : jsstring) (a : attributes) : option jsstring :=
  snd <$> List.find (fun kv => bool_decide (fst kv = name)) a.

(** The element [n] (if it is one) and the elements below it, in document
    order. *)
Fixpoint subtree (above : list (jsstring * attributes)) (n : Node)
  : list Element :=
  match n with
  | ElementNode t a cs =>
      {| ancestors := above; tag := t; attrs := a; children := cs |}
      :: flat_map (subtree ((t, a) :: above)) cs
  | TextNode _ | CommentNode _ => []
  end.

Definition descendants (e : Element) : list Element :=
  flat_map (subtree ((tag e, attrs e) :: ancestors e)) (children e).

(** [node.textContent] *)
Fixpoint text_of (n : Node) : jsstring :=
  match n with
  | TextNode t => t
  | CommentNode _ => []
  | ElementNode _ _ cs => flat_map text_of cs
  end.

Definition textContent (e : Element) : jsstring :=
  flat_map text_of (children e).

(** *** Selectors *)

Inductive simple :=
  | ByTag (name : jsstring)                    (* h2 *)
  | ByClass (name : jsstring)                  (* .a-icon-alt *)
  | AttrIs (name value : jsstring)             (* [a="v"] *)
  | AttrHas (name part : jsstring).            (* [a*="v"] *)

Inductive selector :=
  | Compound (c : list simple)                 (* img.s-image *)
  | Descendant (above c : list simple).        (* h2 span *)

(** The white space that separates class names. *)
Definition is_ascii_space (c : char) : bool :=
  (c =? 9)%N || (c =? 10)%N || (c =? 12)%N || (c =? 13)%N || (c =? 32)%N.

(** The tokens of a [class] attribute. *)
Fixpoint tokens (cur : jsstring) (s : jsstring) : list jsstring :=
  match s with
  | [] => match cur with [] => [] | _ => [cur] end
  | c :: t =>
      if is_ascii_space c then
        match cur with [] => tokens [] t | _ => cur :: tokens [] t end
      else tokens (cur ++ [c]) t
  end.

Fixpoint contains (part s : jsstring) : bool :=
  is_prefix part s
  || match s with
     | [] => false
     | _ :: t => contains part t
     end.

Definition matches_simple (s : simple) (t : jsstring) (a : attributes) : bool :=
  match s with
  | ByTag name => bool_decide (t = name)
  | ByClass name =>
      match getAttribute (js "class") a with
      | Some v => bool_decide (name ∈ tokens [] v)
      | None => false
      end
  | AttrIs name value => bool_decide (getAttribute name a = Some value)
  | AttrHas name part =>
      match part, getAttribute name a with
      | _ :: _, Some v => contains part v
      | _, _ => false
      end
  end.

Definition matches_compound (c : list simple) (ta : jsstring * attributes)
  : bool :=
  forallb (fun s => matches_simple s (fst ta) (snd ta)) c.

Definition matches (sel : selector) (e : Element) : bool :=
  match sel with
  | Compound c => matches_compound c (tag e, attrs e)
  | Descendant above c =>
      matches_compound c (tag e, attrs e)
      && existsb (matches_compound above) (ancestors e)
  end.

(** [element.querySelector(sel)]: the first descendant in document order
    that matches, or [null]. *)
Definition querySelector (sel : selector) (e : Element) : option Element :=
  List.find (matches sel) (descendants e).

(** [document.querySelectorAll(sel)] over the nodes of a document. *)
Definition querySelectorAll (sel : selector) (document : list Node)
  : list Element :=
  List.filter (matches sel) (flat_map (subtree []) document).

(** ** AmazonHtmlParser *)

Record ProductRecord := {
  title : option jsstring;     (* [None] is [null] throughout *)
  rating : option number;
  reviews : option number;
  image : option jsstring
}.

(** [x || null] and [x || ''] for a string [x] that may be [undefined]. *)
Definition or_null (x : option jsstring) : option jsstring :=
  match x with
  | Some ((_ :: _) as s) => Some s
  | Some [] | None => None
  end.

Definition or_empty (x : option jsstring) : jsstring :=
  match x with
  | Some s => s
  | None => []
  end.

(** [o?.f]: [undefined] when [o] is [null] or [undefined]; nothing is
    thrown. *)
Definition opt_member {A B} (o : option A) (f : A -> B) : option B := f <$> o.

(** The selectors of the source. *)
Definition sel_result : selector :=
  Compound [AttrIs (js "data-component-type") (js "s-search-result")].
Definition sel_title : selector := Descendant [ByTag (js "h2")] [ByTag (js "span")].
Definition sel_rating : selector := Compound [ByClass (js "a-icon-alt")].
Definition sel_reviews : selector :=
  Compound [AttrHas (js "aria-label") (js "ratings")].
Definition sel_image : selector :=
  Compound [ByTag (js "img"); ByClass (js "s-image")].

Definition is_digit_or_dot (c : char) : bool := is_digit c || (c =? 46)%N.

(** [/([0-9.]+)\s+out of/] *)
Definition rating_regex : regex :=
  Seq (Group (Plus is_digit_or_dot)) (Seq (Plus is_space) (Lit (js "out of"))).

Section Parser.

(** The HTML parser of jsdom: the child nodes of the document it builds
    ([new JSDOM(undefined)] parses the empty string). *)
Variable JSDOM : jsstring -> list Node.

(** The [src] property of an image: the attribute as the DOM resolves and
    serialises it. *)
Variable resolve : jsstring -> jsstring.

Definition src (e : Element) : jsstring :=
  match getAttribute (js "src") (attrs e) with
  | Some v => resolve v
  | None => []
  end.

(** [item.querySelector('h2 span')?.textContent?.trim() || null] *)
Definition getTitle (item : Element) : completion (option jsstring) :=
  Normal (or_null
            (opt_member
               (opt_member (querySelector sel_title item) textContent)
               trim)).

(** The text of the [.a-icon-alt] element, or [''], is matched against
    [rating_regex]; the first capture goes to [parseFloat]. *)
Definition getRating (item : Element) : completion (option number) :=
  let el := querySelector sel_rating item in
  let text := or_empty (opt_member el textContent) in
  match exec rating_regex text with
  | Some m =>
      Normal (Some (parseFloat (default (js "undefined") (m !! 1%nat))))
  | None => Normal None
  end.

(** The text of the [[aria-label*="ratings"]] element with every
    non-digit removed; [null] when that is [undefined] or empty. *)
Definition getReviews (item : Element) : completion (option number) :=
  let el := querySelector sel_reviews item in
  let text :=
    opt_member (opt_member el textContent)
      (replace_all (fun c => negb (is_digit c)) []) in
  match or_null text with
  | Some text => Normal (Some (parseInt10 text))
  | None => Normal None
  end.

(** [item.querySelector('img.s-image')?.src || null] *)
Definition getImage (item : Element) : completion (option jsstring) :=
  Normal (or_null (opt_member (querySelector sel_image item) src)).

(** The function [parse] maps over the items; the fields are evaluated in
    the order they are written. *)
Definition record_of (item : Element) : completion ProductRecord :=
  title ← getTitle item;
  rating ← getRating item;
  reviews ← getReviews item;
  image ← getImage item;
  Normal {| title := title; rating := rating;
            reviews := reviews; image := image |}.

(** [parse(html)] *)
Definition parse (html : option jsstring) : completion (list ProductRecord) :=
  let dom := JSDOM (or_empty html) in
  let items := querySelectorAll sel_result dom in
  mapM record_of (take 20 items).

End Parser.

(** ** Cache *)

Module Cache.

Record entry (V : Type) := Entry {
  value : V;
  expiry : Z
}.
Arguments Entry {V} value expiry.
Arguments value {V} _.
Arguments expiry {V} _.

Record t (V : Type) := Make {
  ttlMs : Z;
  store : gmap jsstring (entry V)
}.
Arguments Make {V} ttlMs store.
Arguments ttlMs {V} _.
Arguments store {V} _.

(** [new Cache(ttlMs)] *)
Definition new {V} (ttlMs : Z) : t V := Make ttlMs ∅.

(** [get(key)] when [Date.now()] reads [now]: the cache afterwards and
    the value returned, [None] for [null]. *)
Definition get {V} (key : jsstring) (now : Z) (this : t V)
  : t V * option V :=
  match store this !! key with
  | None => (this, None)
  | Some cached =>
      if expiry cached <? now then
        (Make (ttlMs this) (delete key (store this)), None)
      else (this, Some (value cached))
  end.

(** [set(key, value)] when [Date.now()] reads [now]. *)
Definition set {V} (key : jsstring) (v : V) (now : Z) (this : t V) : t V :=
  Make (ttlMs this) (<[key := Entry v (now + ttlMs this)]> (store this)).

End Cache.

Definition CACHE_TTL_MS : Z := 5 * 60 * 1000.

(** ** AmazonScraperService *)

(** The address of a result array on the heap. *)
Definition ref := nat.

Record State := {
  cache : Cache.t ref;
  heap : list (list ProductRecord);   (* allocated arrays, by address *)
  world : World;
  console : list jsstring;            (* lines logged, oldest first *)
  fetches : nat                       (* calls of [fetchHtml] so far *)
}.

Definition log (line : jsstring) (st : State) : State :=
  {| cache := cache st; heap := heap st; world := world st;
     console := console st ++ [line]; fetches := fetches st |}.

Definition with_cache (c : Cache.t ref) (st : State) : State :=
  {| cache := c; heap := heap st; world := world st;
     console := console st; fetches := fetches st |}.

Definition fetched (w : World) (st : State) : State :=
  {| cache := cache st; heap := heap st; world := w;
     console := console st; fetches := S (fetches st) |}.

Definition alloc (a : list ProductRecord) (st : State) : State * ref :=
  ({| cache := cache st; heap := heap st ++ [a]; world := world st;
      console := console st; fetches := fetches st |},
   length (heap st)).

Section Service.

Variable up : Upstream.
Variable httpClient : AmazonHttpClient.
Variable JSDOM : jsstring -> list Node.
Variable resolve : jsstring -> jsstring.

(** [scrape(keyword)]: the state afterwards and the completion, the
    address of the result array when it returns.  [None] only if the
    fetch loop ran out of fuel. *)
Definition scrape (keyword : option jsstring) (st : State)
  : option (State * completion ref) :=
  match KeywordValidator.validate keyword with
  | Throw e => Some (st, Throw e)
  | Normal validatedKeyword =>
      let '(c, cached) :=
        Cache.get validatedKeyword (clock (world st)) (cache st) in
      let st := with_cache c st in
      match cached with
      | Some cached =>
          Some (log (js "[CACHE HIT] Keyword: " ++ validatedKeyword) st,
                Normal cached)
      | None =>
          let st :=
            log (js "[CACHE MISS] Fetching keyword: " ++ validatedKeyword)
                st in
          match AmazonUrlBuilder.build validatedKeyword with
          | Throw e => Some (st, Throw e)
          | Normal url =>
              match fetchHtml up httpClient url (world st) with
              | None => None
              | Some (w, Throw e) => Some (fetched w st, Throw e)
              | Some (w, Normal html) =>
                  let st := fetched w st in
                  match parse JSDOM resolve html with
                  | Throw e => Some (st, Throw e)
                  | Normal records =>
                      let '(st, parsed) := alloc records st in
                      let st :=
                        with_cache
                          (Cache.set validatedKeyword parsed
                             (clock (world st)) (cache st)) st in
                      Some (st, Normal parsed)
                  end
              end
          end
      end
  end.

End Service.

(** ** Vocabulary of the properties, and sample inputs *)

(** What the validator's contract lists as invalid input: absent or empty,
    too long, or with a character outside the allow-list. *)
Definition invalid (raw : option jsstring) : Prop :=
  match raw with
  | None => True
  | Some s =>
      s = [] ∨ (MAX_KEYWORD_LENGTH < length s)%nat
      ∨ ∃ c, c ∈ s ∧ allowed c = false
  end.

(** A keyword of 48 letters followed by 5 spaces. *)
Definition padded : jsstring := replicate 48 97%N ++ replicate 5 32%N.

(** The backoff delays of retries [a+1 .. a+k]. *)
Definition backoff (retryDelay : Z) (a k : nat) : list Z :=
  map (λ i, retryDelay * Z.of_nat i) (seq (S a) k).

(** The message of the error thrown when a 503 has used up the retries of
    the default client. *)
Definition exhausted : string :=
  "Failed after 3 retries: Request failed with status code 503".

(** Nothing requested, no timer awaited, the clock at 0. *)
Definition world0 : World := {| requests := []; sleeps := []; clock := 0 |}.

Definition search_url : jsstring := js "https://www.amazon.com/s?k=usb".
Definition captcha_url : jsstring :=
  js "https://www.amazon.com/errors/validateCaptcha".

(** A server that is unavailable throughout. *)
Definition always503 : Upstream :=
  {| reply := λ _ _, Answered {| status := 503; location := None; data := [] |};
     latency := λ _, 0 |}.

(** A server that answers the search with a redirect to its CAPTCHA page. *)
Definition redirecting : Upstream :=
  {| reply := λ _ url,
       if bool_decide (url = captcha_url) then
         Answered {| status := 200; location := None;
                     data := js "<html>captcha</html>" |}
       else
         Answered {| status := 302; location := Some captcha_url;
                     data := [] |};
     latency := λ _, 0 |}.

(** A server whose 3xx answer names no Location. *)
Definition not_modified : Upstream :=
  {| reply := λ _ _, Answered {| status := 304; location := None; data := [] |};
     latency := λ _, 0 |}.

(** Unavailable twice, then the page. *)
Definition recovering : Upstream :=
  {| reply := λ n _,
       if (n <? 2)%nat then
         Answered {| status := 503; location := None; data := [] |}
       else
         Answered {| status := 200; location := None;
                     data := js "<html></html>" |};
     latency := λ _, 0 |}.

(** A server that is unavailable once and has no such page afterwards. *)
Definition flaky : Upstream :=
  {| reply := λ n _,
       if (n <? 1)%nat then
         Answered {| status := 503; location := None; data := [] |}
       else
         Answered {| status := 404; location := None; data := [] |};
     latency := λ _, 0 |}.

(** The world when [fetchHtml] starts its attempt number [k + 1]: each
    of the [k] attempts before it has made its requests and has been
    followed by its wait, of [retryDelay] times its number. *)
Fixpoint retried (up : Upstream) (this : AmazonHttpClient)
    (url : jsstring) (k : nat) (w : World) : World :=
  match k with
  | O => w
  | S k' =>
      sleep (retryDelay this * Z.of_nat k)
        (fst (axios_get up fetch_config url (retried up this url k' w)))
  end.

(** What the data model asks of a rating. *)
Definition in_rating_range (r : option number) : Prop :=
  match r with
  | None => True
  | Some (Fin q) => (0 <= q)%Q ∧ (q <= 5)%Q
  | Some NegZero => True
  | Some NaN | Some (Infinity _) => False
  end.

(** What the code gives. *)
Definition rating_shape (r : option number) : Prop :=
  match r with
  | None | Some NaN | Some (Infinity false) => True
  | Some (Fin q) => (0 <= q)%Q
  | Some NegZero | Some (Infinity true) => False
  end.

(** The text [getRating] reads: that of the first [.a-icon-alt]
    descendant, empty when there is none. *)
Definition rating_text (item : Element) : jsstring :=
  or_empty (opt_member (querySelector sel_rating item) textContent).

(** [r] is the rating read off [item]: [null] when the pattern does not
    match the rating text, and otherwise [parseFloat] of its group, a run
    of digits and dots that is not empty. *)
Definition rating_read (item : Element) (r : option number) : Prop :=
  match exec rating_regex (rating_text item) with
  | Some m =>
      ∃ whole run, m = [whole; run] ∧ run ≠ []
        ∧ forallb is_digit_or_dot run = true
        ∧ r = Some (parseFloat run)
  | None => r = None
  end.

Definition result_attr : attributes :=
  [(js "data-component-type", js "s-search-result")].

(** A result item with the four substructures. *)
Definition full_item : Node :=
  ElementNode (js "div") result_attr
    [ElementNode (js "h2") []
       [ElementNode (js "span") [] [TextNode (js " USB Charger ")]];
     ElementNode (js "i") [(js "class", js "a-icon a-icon-alt")]
       [TextNode (js "4.5 out of 5 stars")];
     ElementNode (js "a") [(js "aria-label", js "1,234 ratings")]
       [TextNode (js "1,234")];
     ElementNode (js "img")
       [(js "class", js "s-image"); (js "src", js "https://m.example/i.jpg")]
       []].


(** An item whose rating text reads 6 out of 5. *)
Definition overrated_item : Node :=
  ElementNode (js "div") result_attr
    [ElementNode (js "i") [(js "class", js "a-icon-alt")]
       [TextNode (js "6 out of 5 stars")]].

(** An item whose rating text has dots where the number should be. *)
Definition dotted_item : Node :=
  ElementNode (js "div") result_attr
    [ElementNode (js "i") [(js "class", js "a-icon-alt")]
       [TextNode (js "... out of 5 stars")]].

(** An item whose rating text starts with 310 nines. *)
Definition endless_item : Node :=
  ElementNode (js "div") result_attr
    [ElementNode (js "i") [(js "class", js "a-icon-alt")]
       [TextNode (replicate 310 57%N ++ js " out of 5 stars")]].

Definition element_of (n : Node) : Element :=
  match n with
  | ElementNode t a cs =>
      {| ancestors := []; tag := t; attrs := a; children := cs |}
  | TextNode _ | CommentNode _ =>
      {| ancestors := []; tag := []; attrs := []; children := [] |}
  end.

(** The state once the clock reads [t]. *)
Definition at_time (t : Z) (st : State) : State :=
  {| cache := cache st; heap := heap st;
     world := {| requests := requests (world st); sleeps := sleeps (world st);
                 clock := t |};
     console := console st; fetches := fetches st |}.

(** The state of a service that has just been wired up. *)
Definition fresh : State :=
  {| cache := Cache.new CACHE_TTL_MS; heap := [];
     world := {| requests := []; sleeps := []; clock := 0 |};
     console := []; fetches := 0 |}.

(** A server that answers every request with a page, in 120 ms. *)
Definition serving : Upstream :=
  {| reply := λ _ _, Answered {| status := 200; location := None;
                                 data := js "<html>results</html>" |};
     latency := λ _, 120 |}.

(** The state a first search for "usb charger" leaves behind. *)
Definition after_first : State :=
  match scrape serving (new_AmazonHttpClient []) (λ _, [full_item]) id
          (Some (js "usb charger")) fresh with
  | Some (st, _) => st
  | None => fresh
  end.

(** A cache holding one entry that expires at 300000. *)
Definition one_entry : Cache.t nat :=
  Cache.set (js "usb") 7%nat 0 (Cache.new CACHE_TTL_MS).

(** ** ScrapeRouter and errorHandler *)

(** What [req.query.keyword] can be, whichever query parser the
    application runs with: absent, a string, an array (of strings with
    the simple parser; of strings, objects and arrays with the extended
    one), or an object.  The keys and values of an object are strings,
    arrays and objects, never functions, so all that [String] sees of one
    is whether a key of its own hides [Object.prototype.toString]: then
    the object has no primitive value ([primitive = false]). *)
#[local] Unset Elimination Schemes.
Inductive QueryValue :=
  | QUndefined
  | QString (s : jsstring)
  | QObject (primitive : bool)
  | QArray (items : list QueryValue).
#[local] Set Elimination Schemes.

(** Induction on a query value, with the property known of the elements
    of an array. *)
Fixpoint QueryValue_nested_ind (P : QueryValue → Prop)
    (Hundefined : P QUndefined) (Hstring : ∀ s, P (QString s))
    (Hobject : ∀ b, P (QObject b))
    (Harray : ∀ items, Forall P items → P (QArray items))
    (q : QueryValue) : P q :=
  match q with
  | QUndefined => Hundefined
  | QString s => Hstring s
  | QObject b => Hobject b
  | QArray items =>
      Harray items
        ((fix go (l : list QueryValue) : Forall P l :=
            match l with
            | [] => @List.Forall_nil _ P
            | x :: t =>
                @List.Forall_cons _ P x t
                  (QueryValue_nested_ind P Hundefined Hstring Hobject
                     Harray x)
                  (go t)
            end) items)
  end.

(** Only [undefined] and the empty string are falsy. *)
Definition query_truthy (q : QueryValue) : bool :=
  match q with
  | QUndefined | QString [] => false
  | QString (_ :: _) | QObject _ | QArray _ => true
  end.

(** The separators and strings of [Array.prototype.join], put together. *)
Fixpoint join (sep : jsstring) (l : list jsstring) : jsstring :=
  match l with
  | [] => []
  | [x] => x
  | x :: t => x ++ sep ++ join sep t
  end.

(** The message of the [TypeError] of [String]. *)
Definition no_primitive : string :=
  "Cannot convert object to primitive value".

(** [String(value)].  An object is [[object Object]] or throws; an array
    is joined with commas, its elements converted from left to right, an
    [undefined] one giving the empty string. *)
Fixpoint to_String (q : QueryValue) : completion jsstring :=
  match q with
  | QUndefined => Normal (js "undefined")
  | QString s => Normal s
  | QObject true => Normal (js "[object Object]")
  | QObject false => Throw (Error no_primitive)
  | QArray items =>
      texts ← mapM (λ item,
                 match item with
                 | QUndefined => Normal []
                 | _ => to_String item
                 end) items;
      Normal (join (js ",") texts)
  end.

(** What [res.json] is given. *)
Inductive Body :=
  | Results (keyword : jsstring) (count : nat) (results : list ProductRecord)
  | ErrorBody (error : string).

Record HttpResponse := {
  code : Z;
  body : Body
}.

(** The service and what [console.error] has been given. *)
Record Server := {
  service : State;
  stderr : list exception
}.

(** [errorHandler(err, req, res, next)] *)
Definition errorHandler (err : exception) (srv : Server)
  : Server * HttpResponse :=
  match err with
  | ValidationError message =>
      (srv, {| code := 400; body := ErrorBody message |})
  | Error _ | URIError =>
      ({| service := service srv; stderr := stderr srv ++ [err] |},
       {| code := 503; body := ErrorBody "Internal server error" |})
  end.

(** [String(req.query.keyword || '').trim()] *)
Definition read_keyword (query : QueryValue) : completion jsstring :=
  text ← to_String (if query_truthy query then query else QString []);
  Normal (trim text).

(** The keyword the route reads off the query, for the queries that have
    one. *)
Definition keyword_of (query : QueryValue) : jsstring :=
  match read_keyword query with
  | Normal keyword => keyword
  | Throw _ => []
  end.

Section Router.

Variable up : Upstream.
Variable httpClient : AmazonHttpClient.
Variable JSDOM : jsstring -> list Node.
Variable resolve : jsstring -> jsstring.

(** [handleScrape(scraperService, req, res, next)] with [next] leading to
    [errorHandler]: the server afterwards and the response sent.  What
    [String] throws is caught like what [scrape] throws.  The array
    [scrape] returns is read from the heap when it is serialised. *)
Definition handleScrape (query : QueryValue) (srv : Server)
  : option (Server * HttpResponse) :=
  match read_keyword query with
  | Throw err => Some (errorHandler err srv)
  | Normal keyword =>
      match
        scrape up httpClient JSDOM resolve (Some keyword) (service srv)
      with
      | None => None
      | Some (st, Normal results) =>
          let records := default [] (heap st !! results) in
          Some ({| service := st; stderr := stderr srv |},
                {| code := 200;
                   body := Results keyword (length records) records |})
      | Some (st, Throw err) =>
          Some (errorHandler err {| service := st; stderr := stderr srv |})
      end
  end.

End Router.

(** ** More vocabulary *)

(** A string of code units: every element is below 2^16. *)
Definition well_formed_string (s : jsstring) : Prop :=
  Forall (λ c, (c < 65536)%N) s.

(** The characters a query value is made of after encoding: the unreserved
    ones and the percent sign. *)
Definition url_safe (c : char) : bool := uri_unreserved c || (c =? 37)%N.

(** The fixed part of the search URL. *)
Definition search_prefix : jsstring := js "https://www.amazon.com/s?k=".

(** The value of a hexadecimal digit. *)
Definition hex_val (c : char) : N :=
  if is_digit c then (c - 48)%N else (c - 55)%N.

(** Reading back [%XX] escapes as octets; any other character stands for
    itself. *)
Fixpoint unpercent (s : jsstring) : list N :=
  match s with
  | [] => []
  | c :: t =>
      if (c =? 37)%N then
        match t with
        | h :: l :: t' => (16 * hex_val h + hex_val l)%N :: unpercent t'
        | _ => []
        end
      else c :: unpercent t
  end.

(** Reading back UTF-8 octets as code units. *)
Fixpoint unutf8 (bs : list N) : jsstring :=
  match bs with
  | [] => []
  | b :: t =>
      if (b <? 128)%N then b :: unutf8 t
      else if (b <? 224)%N then
        match t with
        | b2 :: t' => ((b - 192) * 64 + (b2 - 128))%N :: unutf8 t'
        | _ => []
        end
      else if (b <? 240)%N then
        match t with
        | b2 :: b3 :: t' =>
            ((b - 224) * 4096 + (b2 - 128) * 64 + (b3 - 128))%N :: unutf8 t'
        | _ => []
        end
      else
        match t with
        | b2 :: b3 :: b4 :: t' =>
            let cp := ((b - 240) * 262144 + (b2 - 128) * 4096
                       + (b3 - 128) * 64 + (b4 - 128))%N in
            (55296 + (cp - 65536) / 1024)%N
            :: (56320 + (cp - 65536) mod 1024)%N :: unutf8 t'
        | _ => []
        end
  end.

(** A left inverse of [encodeURIComponent]. *)
Definition unescape (s : jsstring) : jsstring := unutf8 (unpercent s).

(** What the service keeps true of its state: every cached address is that
    of an allocated array, every allocated array has at most 20 records,
    and every cache key is a keyword [validate] returned. *)
Definition well_formed (st : State) : Prop :=
  (∀ k e, Cache.store (cache st) !! k = Some e →
     (Cache.value e < length (heap st))%nat
     ∧ ∃ raw, KeywordValidator.validate raw = Normal k)
  ∧ Forall (λ a, (length a ≤ 20)%nat) (heap st).

Section Reachable.

Variable up : Upstream.
Variable httpClient : AmazonHttpClient.
Variable JSDOM : jsstring -> list Node.
Variable resolve : jsstring -> jsstring.

(** The states the service can be in: it starts [fresh], time passes, and
    calls of [scrape] return or throw. *)
Inductive reachable : State -> Prop :=
  | reach_fresh : reachable fresh
  | reach_tick (t : Z) (st : State) :
      reachable st -> clock (world st) <= t -> reachable (at_time t st)
  | reach_scrape (raw : option jsstring) (st st' : State)
      (res : completion ref) :
      reachable st ->
      scrape up httpClient JSDOM resolve raw st = Some (st', res) ->
      reachable st'.

End Reachable.

(** A server that fails every request at the transport. *)
Definition unreachable : Upstream :=
  {| reply := λ _ _, Dropped "connect ECONNREFUSED"; latency := λ _, 0 |}.

(** The state a search leaves behind when the server cannot be reached. *)
Definition after_failure : State :=
  match scrape unreachable (new_AmazonHttpClient []) (λ _, [full_item]) id
          (Some (js "usb")) fresh with
  | Some (st, _) => st
  | None => fresh
  end.

(** A server that has just started. *)
Definition fresh_server : Server := {| service := fresh; stderr := [] |}.

(** What the first request for " usb charger " leaves and is answered. *)
Definition first_exchange : Server * HttpResponse :=
  match handleScrape serving (new_AmazonHttpClient []) (λ _, [full_item]) id
          (QString (js " usb charger ")) fresh_server with
  | Some p => p
  | None => (fresh_server, {| code := 0; body := ErrorBody "none" |})
  end.

(** * Properties *)

(** ** Strings and regular expressions *)

Lemma take_drop_while p s : take_while p s ++ drop_while p s = s.
Proof.
  induction s as [|c t IH]; simpl; [done|].
  destruct (p c); simpl; by rewrite ?IH.
Qed.

Lemma take_while_all p s : forallb p (take_while p s) = true.
Proof.
  induction s as [|c t IH]; simpl; [done|].
  destruct (p c) eqn:E; simpl; by rewrite ?E.
Qed.

Lemma take_while_id p s : take_while p s = s ↔ forallb p s = true.
Proof.
  induction s as [|c t IH]; simpl; [done|]. destruct (p c); simpl.
  - rewrite <- IH. split; [by intros [= ?]|by intros ->].
  - done.
Qed.

Lemma length_take_while p s : (length (take_while p s) ≤ length s)%nat.
Proof. induction s as [|c t IH]; simpl; [done|]. destruct (p c); simpl; lia. Qed.

Lemma plus_lengths_spec p s n :
  n ∈ plus_lengths p s ↔ (1 ≤ n ≤ length (take_while p s))%nat.
Proof.
  revert n. induction s as [|c t IH]; intros n; simpl.
  - rewrite elem_of_nil. lia.
  - destruct (p c); simpl; [|rewrite elem_of_nil; lia].
    rewrite elem_of_app, list_elem_of_fmap, list_elem_of_singleton. split.
    + intros [(m & -> & Hm)| ->]; [apply IH in Hm|]; lia.
    + intros [H1 H2]. destruct (decide (n = 1%nat)) as [->|]; [by right|].
      left. exists (pred n). split; [lia|]. apply IH. lia.
Qed.

Lemma flat_map_nil {A B} (f : A → list B) l :
  flat_map f l = [] ↔ ∀ x, x ∈ l → f x = [].
Proof.
  induction l as [|a l IH]; simpl.
  - split; [intros _ x Hx; by apply elem_of_nil in Hx|done].
  - split.
    + intros H x Hx. apply app_eq_nil in H as [Ha Hl].
      apply elem_of_cons in Hx as [->|Hx]; [done|]. by apply IH.
    + intros H. rewrite (H a), (proj2 IH); [done| |left].
      intros x Hx. apply H. by right.
Qed.

Lemma run_keyword_nil start s :
  run KEYWORD_REGEX (MState start s []) = []
  ↔ ¬ (start = 0%nat ∧ s ≠ [] ∧ forallb allowed s = true).
Proof.
  unfold KEYWORD_REGEX. simpl.
  destruct (Nat.eqb_spec start 0) as [->|Hne]; simpl.
  2:{ split; [intros _ [? _]; done|done]. }
  rewrite app_nil_r, flat_map_nil. split.
  - intros H (_ & Hs & Hall).
    assert (advance (length s) (MState 0 s [])
            ∈ map (λ n, advance n (MState 0 s [])) (plus_lengths allowed s))
      as Hin.
    { apply list_elem_of_fmap. exists (length s). split; [done|].
      apply plus_lengths_spec. apply take_while_id in Hall. rewrite Hall.
      destruct s; [done|simpl; lia]. }
    apply H in Hin. simpl in Hin. by rewrite drop_all in Hin.
  - intros H x Hx. apply list_elem_of_fmap in Hx as (n & -> & Hn).
    apply plus_lengths_spec in Hn. simpl.
    destruct (drop n s) eqn:Hd; [|done]. exfalso. apply H.
    split; [done|].
    assert (length s ≤ n)%nat as Hlen.
    { destruct (decide (length s ≤ n)%nat); [done|].
      assert (length (drop n s) = 0%nat) as Hl by by rewrite Hd.
      rewrite length_drop in Hl. lia. }
    pose proof (length_take_while allowed s).
    split; [destruct s; [simpl in *; lia|done]|].
    apply take_while_id. 
    rewrite <- (take_drop_while allowed s) at 2.
    assert (drop_while allowed s = []) as ->; [|by rewrite app_nil_r].
    apply nil_length_inv.
    pose proof (f_equal length (take_drop_while allowed s)) as Hl.
    rewrite length_app in Hl. lia.
Qed.

Lemma exec_from_eq r start input :
  exec_from r start input
  = match match_at r start input with
    | Some m => Some m
    | None =>
        match input with
        | [] => None
        | _ :: t => exec_from r (S start) t
        end
    end.
Proof. by destruct input. Qed.

Lemma exec_keyword_later start s :
  (0 < start)%nat → exec_from KEYWORD_REGEX start s = None.
Proof.
  revert start. induction s as [|c t IH]; intros start Hs;
    rewrite exec_from_eq; unfold match_at;
    rewrite (proj2 (run_keyword_nil start _)) by lia.
  - done.
  - apply IH. lia.
Qed.

(** The allow-list pattern accepts exactly the non-empty strings made of
    word characters, white space and hyphens. *)
Lemma test_KEYWORD_REGEX s :
  test KEYWORD_REGEX s = true ↔ s ≠ [] ∧ forallb allowed s = true.
Proof.
  unfold test, exec. rewrite exec_from_eq. unfold match_at.
  destruct (decide (s ≠ [] ∧ forallb allowed s = true)) as [H|H].
  - split; [done|intros _].
    destruct (run KEYWORD_REGEX (MState 0 s [])) eqn:E; [|done].
    apply run_keyword_nil in E. by destruct E.
  - split; [|done].
    rewrite (proj2 (run_keyword_nil 0 _)) by (by intros (_ & ? & ?); apply H).
    destruct s as [|c t]; [done|]. by rewrite exec_keyword_later by lia.
Qed.

(** ** [trim] *)

Lemma trimStart_split s :
  ∃ l, s = l ++ trimStart s ∧ forallb is_space l = true.
Proof.
  induction s as [|c t (l & Hl & Hs)]; simpl; [by exists []|].
  destruct (is_space c) eqn:E; [|by exists []].
  exists (c :: l). simpl. rewrite E, <- Hl. done.
Qed.

Lemma trimStart_head s c : head (trimStart s) = Some c → is_space c = false.
Proof.
  induction s as [|d t IH]; simpl; [done|].
  destruct (is_space d) eqn:E; [done|]. simpl. by intros [= <-].
Qed.

Lemma trimStart_nil s : trimStart s = [] ↔ forallb is_space s = true.
Proof.
  induction s as [|d t IH]; simpl; [done|]. by destruct (is_space d).
Qed.

Lemma forallb_rev {A} (p : A → bool) l : forallb p (rev l) = forallb p l.
Proof.
  induction l as [|a l IH]; simpl; [done|].
  rewrite forallb_app, IH. simpl. destruct (p a), (forallb p l); done.
Qed.

Lemma trimEnd_split s :
  ∃ r, s = trimEnd s ++ r ∧ forallb is_space r = true.
Proof.
  unfold trimEnd. destruct (trimStart_split (rev s)) as (l & Hl & Hs).
  exists (rev l). rewrite forallb_rev. split; [|done].
  rewrite <- rev_app_distr, <- Hl. by rewrite rev_involutive.
Qed.

Lemma trimEnd_last s c : last (trimEnd s) = Some c → is_space c = false.
Proof.
  unfold trimEnd. rewrite rev_alt. intros H.
  change (last (reverse (trimStart (rev s))) = Some c) in H.
  rewrite last_reverse in H. by eapply trimStart_head.
Qed.

Lemma trimEnd_nil s : trimEnd s = [] ↔ forallb is_space s = true.
Proof.
  unfold trimEnd. rewrite <- (forallb_rev _ s), <- trimStart_nil.
  split; [|by intros ->].
  intros H. apply (f_equal (@rev _)) in H. by rewrite rev_involutive in H.
Qed.

Lemma trimEnd_head s c :
  head (trimEnd s) = Some c → head s = Some c.
Proof.
  destruct (trimEnd_split s) as (r & Hr & _). rewrite Hr at 2.
  by destruct (trimEnd s).
Qed.

(** [trim] removes a run of white space from each end and nothing else;
    what is left neither starts nor ends with white space. *)
Lemma trim_spec s :
  ∃ l r, s = l ++ trim s ++ r
         ∧ forallb is_space l = true ∧ forallb is_space r = true
         ∧ (∀ c, head (trim s) = Some c → is_space c = false)
         ∧ (∀ c, last (trim s) = Some c → is_space c = false).
Proof.
  unfold trim.
  destruct (trimStart_split s) as (l & Hl & Hsl).
  destruct (trimEnd_split (trimStart s)) as (r & Hr & Hsr).
  exists l, r. split; [by rewrite <- Hr|].
  split; [done|]. split; [done|]. split.
  - intros c Hc. by apply trimEnd_head, trimStart_head in Hc.
  - apply trimEnd_last.
Qed.

Lemma trim_nil s : trim s = [] ↔ forallb is_space s = true.
Proof.
  unfold trim. rewrite trimEnd_nil. split.
  - intros H. destruct (trimStart_split s) as (l & Hl & Hsl).
    rewrite Hl, forallb_app, Hsl, H. done.
  - intros H. by rewrite (proj2 (trimStart_nil s) H).
Qed.

Lemma trim_length s : (length (trim s) ≤ length s)%nat.
Proof.
  destruct (trim_spec s) as (l & r & Hs & _).
  rewrite Hs at 2. rewrite !length_app. lia.
Qed.

Lemma trim_forallb p s : forallb p s = true → forallb p (trim s) = true.
Proof.
  destruct (trim_spec s) as (l & r & Hs & _). rewrite Hs at 1.
  rewrite !forallb_app, !andb_true_iff. tauto.
Qed.

(** ** KeywordValidator *)

Lemma forallb_false {A} (p : A → bool) l :
  forallb p l = false ↔ ∃ x, x ∈ l ∧ p x = false.
Proof.
  induction l as [|a l IH]; simpl.
  - split; [done|]. intros (x & Hx & _). by apply elem_of_nil in Hx.
  - destruct (p a) eqn:E; simpl.
    + rewrite IH. split.
      * intros (x & Hx & Hp). exists x. split; [by right|done].
      * intros (x & Hx & Hp). apply elem_of_cons in Hx as [->|Hx];
          [congruence|by exists x].
    + split; [|done]. intros _. exists a. split; [by left|done].
Qed.

Lemma validate_cases (s : jsstring) :
  KeywordValidator.validate (Some s)
  = if decide (s = []) then Throw (ValidationError "Keyword is required")
    else if (MAX_KEYWORD_LENGTH <? length s)%nat then
      Throw (ValidationError "Keyword must be at most 50 characters")
    else if forallb allowed s then Normal (trim s)
    else Throw (ValidationError "Keyword contains invalid characters").
Proof.
  destruct s as [|c t]; [done|]. rewrite decide_False by done.
  unfold KeywordValidator.validate.
  destruct (MAX_KEYWORD_LENGTH <? length (c :: t))%nat; [done|].
  destruct (test KEYWORD_REGEX (c :: t)) eqn:E; unfold negb.
  - apply test_KEYWORD_REGEX in E as [_ ->]. done.
  - destruct (forallb allowed (c :: t)) eqn:F; [|done].
    assert (test KEYWORD_REGEX (c :: t) = true); [|congruence].
    by apply test_KEYWORD_REGEX.
Qed.

(** C5: [validate] throws a [ValidationError] exactly when the input is
    absent or empty, longer than 50 characters, or holds a character that
    is not a word character, white space or a hyphen.  Every non-empty
    input of at most 50 allowed characters is returned trimmed: a run of
    white space is taken off each end, the rest is unchanged, and the result
    neither starts nor ends with white space. *)
Theorem validate_contract (raw : option jsstring) :
  ((∃ m, KeywordValidator.validate raw = Throw (ValidationError m))
   ↔ invalid raw)
  ∧ (∀ s, raw = Some s → s ≠ [] → forallb allowed s = true →
       (length s ≤ MAX_KEYWORD_LENGTH)%nat →
       KeywordValidator.validate raw = Normal (trim s)
       ∧ ∃ l r, s = l ++ trim s ++ r
           ∧ forallb is_space l = true ∧ forallb is_space r = true
           ∧ (∀ c, head (trim s) = Some c → is_space c = false)
           ∧ (∀ c, last (trim s) = Some c → is_space c = false)).
Proof.
  split.
  - destruct raw as [s|]; [|simpl; split; eauto].
    rewrite validate_cases. unfold invalid.
    destruct (decide (s = [])) as [->|Hs]; [split; eauto|].
    destruct (Nat.ltb_spec MAX_KEYWORD_LENGTH (length s)); [split; eauto|].
    destruct (forallb allowed s) eqn:F.
    + split; [by intros [m Hm]|].
      intros [?|[?|Hc]]; [done|lia|].
      apply forallb_false in Hc. congruence.
    + split; [intros _|eauto]. right; right. by apply forallb_false.
  - intros s -> Hs Hall Hlen. split; [|apply trim_spec].
    rewrite validate_cases, decide_False, Hall by done.
    by destruct (Nat.ltb_spec MAX_KEYWORD_LENGTH (length s)); [lia|].
Qed.

Lemma validate_contract_witness :
  KeywordValidator.validate (Some (js " usb-charger 2 "))
  = Normal (js "usb-charger 2").
Proof.
  destruct (proj2 (validate_contract (Some (js " usb-charger 2 ")))
              (js " usb-charger 2 ") eq_refl) as [H _].
  - discriminate.
  - reflexivity.
  - vm_compute. lia.
  - exact H.
Defined.

(** C6, as stated, fails: a single space passes every check and is
    trimmed to the empty string. *)
Lemma validate_returns_empty :
  KeywordValidator.validate (Some (js " ")) = Normal []
  ∧ ¬ (∀ raw k, KeywordValidator.validate raw = Normal k →
         (1 ≤ length k ≤ MAX_KEYWORD_LENGTH)%nat
         ∧ forallb allowed k = true).
Proof.
  split; [reflexivity|]. intros H.
  destruct (H (Some (js " ")) [] eq_refl) as [[Hlen _] _]. simpl in Hlen. lia.
Qed.

(** C6, amended: every value [validate] returns has at most 50 characters,
    all of them word characters, white space or hyphens; it is empty
    exactly when the input consists of white space only. *)
Theorem validate_result (raw : option jsstring) (k : jsstring) :
  KeywordValidator.validate raw = Normal k →
  (length k ≤ MAX_KEYWORD_LENGTH)%nat
  ∧ forallb allowed k = true
  ∧ (k = [] ↔ ∃ s, raw = Some s ∧ forallb is_space s = true).
Proof.
  destruct raw as [s|]; [|done]. rewrite validate_cases.
  destruct (decide (s = [])); [done|].
  destruct (Nat.ltb_spec MAX_KEYWORD_LENGTH (length s)); [done|].
  destruct (forallb allowed s) eqn:F; [|done]. intros [= <-].
  split; [pose proof (trim_length s); lia|].
  split; [by apply trim_forallb|].
  rewrite trim_nil. split; [by exists s|]. by intros (? & [= <-] & ?).
Qed.

Lemma validate_result_witness :
  (length (js "usb charger") ≤ MAX_KEYWORD_LENGTH)%nat
  ∧ forallb allowed (js "usb charger") = true
  ∧ (js "usb charger" = []
     ↔ ∃ s, Some (js " usb charger ") = Some s ∧ forallb is_space s = true).
Proof.
  exact (validate_result (Some (js " usb charger ")) (js "usb charger")
           eq_refl).
Defined.

(** C10: the length limit is checked on the input as given, before it is
    trimmed.  Every input of more than 50 characters is refused with the
    length error; so is a 48-character keyword followed by 5 spaces, whose
    trimmed form has 48 characters and is accepted on its own. *)
Theorem validate_length_before_trim :
  (∀ raw : jsstring, (MAX_KEYWORD_LENGTH < length raw)%nat →
     KeywordValidator.validate (Some raw)
     = Throw (ValidationError "Keyword must be at most 50 characters"))
  ∧ length padded = 53%nat
  ∧ length (trim padded) = 48%nat
  ∧ KeywordValidator.validate (Some (trim padded)) = Normal (trim padded)
  ∧ KeywordValidator.validate (Some padded)
    = Throw (ValidationError "Keyword must be at most 50 characters").
Proof.
  assert (∀ raw : jsstring, (MAX_KEYWORD_LENGTH < length raw)%nat →
     KeywordValidator.validate (Some raw)
     = Throw (ValidationError "Keyword must be at most 50 characters")) as H.
  { intros raw Hlen. rewrite validate_cases.
    destruct (decide (raw = [])) as [->|_]; [simpl in Hlen; lia|].
    by destruct (Nat.ltb_spec MAX_KEYWORD_LENGTH (length raw)); [|lia]. }
  split; [done|]. split; [reflexivity|]. split; [reflexivity|].
  split; [reflexivity|]. apply H. vm_compute. lia.
Qed.

Lemma validate_length_before_trim_witness :
  KeywordValidator.validate (Some padded)
  = Throw (ValidationError "Keyword must be at most 50 characters").
Proof.
  apply (proj1 validate_length_before_trim padded). vm_compute. lia.
Defined.

(** ** AmazonHttpClient *)

Section HttpClientFacts.

Variable up : Upstream.

Lemma send_world url w w1 r :
  send up url w = (w1, r) →
  sleeps w1 = sleeps w ∧ requests w1 = requests w ++ [url]
  ∧ r = reply up (length (requests w)) url.
Proof. unfold send. by intros [= <- <-]. Qed.

(** Following redirects puts at least one request on the wire and starts
    no timer. *)
Lemma follow_world budget url w w1 r :
  follow up budget url w = (w1, r) →
  sleeps w1 = sleeps w
  ∧ ∃ more, requests w1 = requests w ++ url :: more
            ∧ (length more ≤ budget)%nat.
Proof.
  revert url w. induction budget as [|b IH]; intros url w; simpl;
    destruct (reply up (length (requests w)) url) as [resp|m] eqn:E;
    try (intros [= <- <-]; simpl; split; [done|]; exists []; simpl;
         split; [done|lia]).
  - destruct (location resp) as [target|];
      [destruct ((300 <=? status resp) && (status resp <? 400))|];
      intros [= <- <-]; simpl; (split; [done|]); exists []; simpl;
      (split; [done|lia]).
  - destruct (location resp) as [target|];
      [destruct ((300 <=? status resp) && (status resp <? 400))|];
      try (intros [= <- <-]; simpl; (split; [done|]); exists []; simpl;
           (split; [done|lia])).
    intros H. apply IH in H as (Hs & more & Hr & Hlen). simpl in *.
    split; [done|]. exists (target :: more). rewrite Hr, <- app_assoc.
    simpl. split; [done|lia].
Qed.

(** A response that axios rejects under [fetch_config] has a status
    outside 200-399: no rejection carries a redirect status. *)
Lemma axios_get_rejected url w w1 err :
  axios_get up fetch_config url w = (w1, inr err) →
  match response err with
  | Some resp =>
      status resp ≠ 0 ∧ ¬ (200 ≤ status resp < 400)
      ∧ message err
        = "Request failed with status code " +:+ pretty (status resp)
  | None => True
  end.
Proof.
  unfold axios_get.
  destruct (follow up (maxRedirects fetch_config) url w) as [w2 [resp|m]].
  - destruct (Z.eqb_spec (status resp) 0) as [|Hz]; simpl; [done|].
    destruct (Z.leb_spec 200 (status resp)),
             (Z.ltb_spec (status resp) 400); simpl;
      try done; intros [= <- <-]; simpl; (split; [done|]);
      (split; [lia|done]).
  - by intros [= <- <-].
Qed.

Lemma axios_get_world cfg url w w1 r :
  axios_get up cfg url w = (w1, r) →
  sleeps w1 = sleeps w
  ∧ ∃ more, requests w1 = requests w ++ url :: more
            ∧ (length more ≤ maxRedirects cfg)%nat.
Proof.
  unfold axios_get.
  destruct (follow up (maxRedirects cfg) url w) as [w2 rp] eqn:E.
  apply follow_world in E.
  destruct rp as [resp|m];
    [destruct ((status resp =? 0) || validateStatus cfg (status resp))|];
    by intros [= <- <-].
Qed.

Variable this : AmazonHttpClient.

(** The loop returns within the fuel [fetchHtml] gives it, after at most
    [maxRetries - attempt] further waits, each of [retryDelay * attempt]
    for the value of [attempt] at that point. *)
Lemma fetch_loop_bounded fuel url attempt w :
  (attempt ≤ maxRetries this)%nat →
  (maxRetries this - attempt < fuel)%nat →
  ∃ w' r k, fetch_loop up this fuel url attempt w = Some (w', r)
    ∧ (k ≤ maxRetries this - attempt)%nat
    ∧ sleeps w' = sleeps w ++ backoff (retryDelay this) attempt k.
Proof.
  revert attempt w. induction fuel as [|fuel IH]; intros attempt w Ha Hf;
    [lia|]. simpl.
  destruct (Nat.leb_spec attempt (maxRetries this)); [|lia].
  destruct (axios_get up fetch_config url w) as [w1 [resp|err]] eqn:E;
    apply axios_get_world in E as [Hs _].
  { exists w1, (Normal (Some (data resp))), 0%nat.
    rewrite Hs. unfold backoff. simpl. rewrite app_nil_r.
    split; [done|]. split; [lia|done]. }
  set (st := status <$> response err).
  destruct (truthy_status st && at_least 300 st && below 400 st).
  { eexists w1, _, 0%nat. unfold backoff. simpl. rewrite app_nil_r, Hs.
    split; [done|]. split; [lia|done]. }
  destruct (bool_decide (st = Some 503)).
  2:{ eexists w1, _, 0%nat. unfold backoff. simpl. rewrite app_nil_r, Hs.
      split; [done|]. split; [lia|done]. }
  destruct (Nat.ltb_spec (maxRetries this) (S attempt)).
  { eexists w1, _, 0%nat. unfold backoff. simpl. rewrite app_nil_r, Hs.
    split; [done|]. split; [lia|done]. }
  destruct (IH (S attempt)
              (sleep (retryDelay this * Z.of_nat (S attempt)) w1))
    as (w' & r & k & Hrun & Hk & Hsl); [lia|lia|].
  exists w', r, (S k). split; [done|]. split; [lia|].
  rewrite Hsl. unfold backoff. simpl. rewrite Hs, <- app_assoc. done.
Qed.

(** [fetchHtml] always returns or throws. *)
Lemma fetchHtml_total url w :
  ∃ w' r k, fetchHtml up this url w = Some (w', r)
    ∧ (k ≤ maxRetries this)%nat
    ∧ sleeps w' = sleeps w ++ backoff (retryDelay this) 0 k.
Proof.
  destruct (fetch_loop_bounded (S (maxRetries this)) url 0 w)
    as (w' & r & k & H & Hk & Hs); [lia|lia|].
  exists w', r, k. split; [done|]. split; [lia|done].
Qed.

(** A rejection that is not a 503 ends the call at once, at any attempt
    within the budget. *)
Lemma fetch_loop_reject fuel url attempt w w1 err :
  (attempt ≤ maxRetries this)%nat →
  axios_get up fetch_config url w = (w1, inr err) →
  status <$> response err ≠ Some 503 →
  fetch_loop up this (S fuel) url attempt w
  = Some (w1, Throw (Error ("Failed to fetch HTML: "
                            +:+ match response err with
                                | Some resp => pretty (status resp)
                                | None => message err
                                end))).
Proof.
  intros Ha E Hs. cbn [fetch_loop].
  destruct (Nat.leb_spec attempt (maxRetries this)); [|lia].
  rewrite E. apply axios_get_rejected in E.
  rewrite bool_decide_false by done.
  destruct (response err) as [resp|]; simpl; [|done].
  destruct E as (Hz & Hr & _).
  destruct (Z.eqb_spec (status resp) 0); [done|]. simpl.
  destruct (Z.leb_spec 300 (status resp)),
           (Z.ltb_spec (status resp) 400); simpl; try done. lia.
Qed.

(** [k] attempts rejected with a 503 bring the loop to its iteration
    with [attempt = k], in the world [retried k w]. *)
Lemma fetch_loop_retried url w k :
  ∀ fuel,
    (k ≤ maxRetries this)%nat →
    (∀ i, (i < k)%nat →
       ∃ e, snd (axios_get up fetch_config url (retried up this url i w))
            = inr e
            ∧ status <$> response e = Some 503) →
    fetch_loop up this (k + fuel) url 0 w
    = fetch_loop up this fuel url k (retried up this url k w).
Proof.
  induction k as [|k IH]; intros fuel Hk H503; [done|].
  replace (S k + fuel)%nat with (k + S fuel)%nat by lia.
  rewrite IH by (lia || (intros i Hi; apply H503; lia)).
  destruct (H503 k) as (e & He & Hs); [lia|].
  cbn [fetch_loop retried].
  destruct (Nat.leb_spec k (maxRetries this)); [|lia].
  destruct (axios_get up fetch_config url (retried up this url k w))
    as [w1 res]. simpl in He. subst res. rewrite Hs. simpl.
  destruct (Nat.ltb_spec (maxRetries this) (S k)); [lia|done].
Qed.

Lemma retried_sleeps url w k :
  sleeps (retried up this url k w)
  = sleeps w ++ backoff (retryDelay this) 0 k.
Proof.
  induction k as [|k IH]; [by rewrite app_nil_r|].
  cbn [retried]. unfold backoff.
  destruct (axios_get up fetch_config url (retried up this url k w))
    as [w1 res] eqn:E. apply axios_get_world in E as [Hs _].
  rewrite seq_S, map_app, app_assoc. simpl. by rewrite Hs, IH.
Qed.

End HttpClientFacts.

Lemma axios_get_503 up url w resp :
  reply up (length (requests w)) url = Answered resp →
  status resp = 503 →
  axios_get up fetch_config url w
  = (fst (send up url w),
     inr {| response := Some resp;
            message := "Request failed with status code 503" |}).
Proof.
  intros Hr Hs. unfold axios_get. simpl. rewrite Hr, Hs.
  destruct (location resp); simpl; by rewrite ?Hs.
Qed.

(** One iteration of the loop on a 503, for the default client. *)
Lemma fetch_loop_503 up ua fuel url attempt w resp :
  (attempt ≤ 3)%nat →
  reply up (length (requests w)) url = Answered resp →
  status resp = 503 →
  fetch_loop up (new_AmazonHttpClient ua) (S fuel) url attempt w
  = if (3 <? S attempt)%nat then
      Some (fst (send up url w),
            Throw (Error exhausted))
    else
      fetch_loop up (new_AmazonHttpClient ua) fuel url (S attempt)
        (sleep (1000 * Z.of_nat (S attempt)) (fst (send up url w))).
Proof.
  intros Ha Hr Hs. cbn [fetch_loop].
  rewrite (axios_get_503 _ _ _ _ Hr Hs). cbn [maxRetries new_AmazonHttpClient].
  destruct (Nat.leb_spec attempt 3); [|lia]. simpl. by rewrite Hs.
Qed.

(** C2, as stated, fails: a server that stays unavailable is asked four
    times. *)
Lemma fetchHtml_four_attempts :
  ∃ w', fetchHtml always503 (new_AmazonHttpClient []) search_url world0
        = Some (w', Throw (Error exhausted))
    ∧ requests w' = [search_url; search_url; search_url; search_url]
    ∧ sleeps w' = [1000; 2000; 3000]
    ∧ ¬ (length (requests w') ≤ 3)%nat.
Proof.
  eexists. split; [vm_compute; reflexivity|]. simpl.
  repeat split; [done..|lia].
Qed.

(** C2, amended: with the default client, [fetchHtml] always returns or
    throws after at most 3 retries, the k-th retry coming after a wait of
    k × 1000 ms.  When every answer is a 503 it makes 4 requests, waits
    1000, 2000 and 3000 ms between them, and throws an [Error] whose message
    carries that of the last failure.  A rejection with any other status, or
    without a response, ends the call at whichever attempt it comes, the
    first or one that follows [k] rejections with a 503: an [Error] is
    thrown at once, with no wait after those of the [k] retries. *)
Theorem fetchHtml_retry_policy (up : Upstream) (ua url : jsstring)
    (w : World) :
  let client := new_AmazonHttpClient ua in
  (∃ w' r k, fetchHtml up client url w = Some (w', r)
     ∧ (k ≤ 3)%nat
     ∧ sleeps w' = sleeps w ++ map (λ i, 1000 * Z.of_nat i) (seq 1 k))
  ∧ ((∀ n, ∃ resp, reply up n url = Answered resp ∧ status resp = 503) →
     ∃ w', fetchHtml up client url w
           = Some (w', Throw (Error exhausted))
       ∧ requests w' = requests w ++ replicate 4 url
       ∧ sleeps w' = sleeps w ++ [1000; 2000; 3000])
  ∧ (∀ (k : nat) w1 err,
       (k ≤ 3)%nat →
       (∀ i, (i < k)%nat →
          ∃ e, snd (axios_get up fetch_config url
                      (retried up client url i w)) = inr e
               ∧ status <$> response e = Some 503) →
       axios_get up fetch_config url (retried up client url k w)
       = (w1, inr err) →
       status <$> response err ≠ Some 503 →
       ∃ m, fetchHtml up client url w = Some (w1, Throw (Error m))
            ∧ sleeps w1
              = sleeps w ++ map (λ i, 1000 * Z.of_nat i) (seq 1 k)
            ∧ m = "Failed to fetch HTML: "
                  +:+ match response err with
                      | Some resp => pretty (status resp)
                      | None => message err
                      end).
Proof.
  intros client. split; [|split].
  - apply (fetchHtml_total up client url w).
  - intros H503. unfold fetchHtml, client.
    cbn [maxRetries new_AmazonHttpClient].
    destruct (H503 (length (requests w))) as (r1 & Hr1 & Hs1).
    rewrite (fetch_loop_503 _ _ _ _ _ _ r1) by (done || lia).
    cbn [Nat.ltb Nat.leb].
    set (w1 := sleep _ _).
    destruct (H503 (length (requests w1))) as (r2 & Hr2 & Hs2).
    rewrite (fetch_loop_503 _ _ _ _ _ _ r2) by (done || lia).
    cbn [Nat.ltb Nat.leb].
    set (w2 := sleep _ _).
    destruct (H503 (length (requests w2))) as (r3 & Hr3 & Hs3).
    rewrite (fetch_loop_503 _ _ _ _ _ _ r3) by (done || lia).
    cbn [Nat.ltb Nat.leb].
    set (w3 := sleep _ _).
    destruct (H503 (length (requests w3))) as (r4 & Hr4 & Hs4).
    rewrite (fetch_loop_503 _ _ _ _ _ _ r4) by (done || lia).
    cbn [Nat.ltb Nat.leb].
    eexists. split; [done|]. subst w1 w2 w3. simpl.
    rewrite <- !app_assoc. done.
  - intros k w1 err Hk H503 E Hs. eexists. split; [|split; [|done]].
    + unfold fetchHtml.
      replace (S (maxRetries client)) with (k + S (3 - k))%nat
        by (simpl; lia).
      rewrite fetch_loop_retried by done.
      by apply fetch_loop_reject.
    + apply axios_get_world in E as [-> _].
      apply (retried_sleeps up client).
Qed.

Lemma fetchHtml_retry_policy_witness :
  (∃ w', fetchHtml always503 (new_AmazonHttpClient []) search_url world0
         = Some (w', Throw (Error exhausted))
     ∧ requests w' = requests world0 ++ replicate 4 search_url
     ∧ sleeps w' = sleeps world0 ++ [1000; 2000; 3000])
  ∧ (∃ m, fetchHtml flaky (new_AmazonHttpClient []) search_url world0
          = Some ({| requests := [search_url; search_url];
                     sleeps := [1000]; clock := 1000 |},
                  Throw (Error m))
       ∧ [1000] = sleeps world0 ++ map (λ i, 1000 * Z.of_nat i) (seq 1 1)
       ∧ m = "Failed to fetch HTML: " +:+ pretty 404).
Proof.
  split.
  - apply (proj1 (proj2 (fetchHtml_retry_policy always503 []
                           search_url world0))).
    intros n. eexists. split; reflexivity.
  - apply (proj2 (proj2 (fetchHtml_retry_policy flaky []
                           search_url world0))
             1%nat
             {| requests := [search_url; search_url];
                sleeps := [1000]; clock := 1000 |}
             {| response := Some {| status := 404; location := None;
                                    data := [] |};
                message := "Request failed with status code 404" |}).
    + lia.
    + intros [|i] Hi; [|lia]. eexists. split; reflexivity.
    + reflexivity.
    + simpl. congruence.
Defined.

(** Two failures are followed by exactly two waits. *)
Example fetchHtml_recovers :
  fetchHtml recovering (new_AmazonHttpClient []) search_url world0
  = Some ({| requests := replicate 3 search_url; sleeps := [1000; 2000];
             clock := 3000 |},
          Normal (Some (js "<html></html>"))).
Proof. vm_compute. reflexivity. Qed.

(** No call of [fetchHtml] ends in the "Redirect blocked" error: the
    statuses that branch tests for are accepted by [validateStatus]. *)
Lemma fetch_loop_never_blocks up this fuel url attempt w w' m s :
  fetch_loop up this fuel url attempt w = Some (w', Throw (Error m)) →
  m ≠ "Redirect blocked (status " +:+ s +:+ ")".
Proof.
  revert attempt w. induction fuel as [|fuel IH]; intros attempt w; [done|].
  simpl. destruct (attempt <=? maxRetries this)%nat; [|done].
  destruct (axios_get up fetch_config url w) as [w1 [resp|err]] eqn:E;
    [done|]. apply axios_get_rejected in E.
  destruct (response err) as [resp|]; simpl.
  - destruct E as (Hz & Hr & _).
    destruct (Z.eqb_spec (status resp) 0); [done|]. simpl.
    destruct (Z.leb_spec 300 (status resp)),
             (Z.ltb_spec (status resp) 400); simpl; try lia.
    all: destruct (bool_decide (Some (status resp) = Some 503));
      [destruct (maxRetries this <? S attempt)%nat; [|by apply IH]|];
      by intros [= <- <-].
  - by intros [= <- <-].
Qed.

(** C1: what the code does with a redirect.  A 302 that names a Location
    is followed, and the body of the page it leads to is returned; a 3xx
    answer that names none is returned as a success.  Neither call throws. *)
Theorem fetchHtml_redirect_not_blocked :
  fetchHtml redirecting (new_AmazonHttpClient []) search_url world0
  = Some ({| requests := [search_url; captcha_url]; sleeps := [];
             clock := 0 |},
          Normal (Some (js "<html>captcha</html>")))
  ∧ fetchHtml not_modified (new_AmazonHttpClient []) search_url world0
    = Some ({| requests := [search_url]; sleeps := []; clock := 0 |},
            Normal (Some [])).
Proof. split; vm_compute; reflexivity. Qed.

(** ** AmazonHtmlParser *)

Lemma elem_of_flat_map {A B} (f : A → list B) l y :
  y ∈ flat_map f l ↔ ∃ x, x ∈ l ∧ y ∈ f x.
Proof.
  rewrite list_elem_of_In, in_flat_map.
  by setoid_rewrite list_elem_of_In.
Qed.

(** What follows the group leaves the captures alone. *)
Lemma run_tail_groups s s' :
  s' ∈ run (Seq (Plus is_space) (Lit (js "out of"))) s → groups s' = groups s.
Proof.
  cbn [run]. rewrite elem_of_flat_map. intros (x & Hx & Hs').
  apply list_elem_of_fmap in Hx as (n & -> & _).
  destruct (is_prefix _ _); [|by apply elem_of_nil in Hs'].
  by apply list_elem_of_singleton in Hs' as ->.
Qed.

Lemma plus_lengths_head p s n :
  n ∈ plus_lengths p s → ∃ c t, s = c :: t ∧ p c = true ∧ (1 ≤ n)%nat.
Proof.
  intros Hn. pose proof (proj1 (plus_lengths_spec p s n) Hn) as Hle.
  destruct s as [|c t]; [simpl in Hle; lia|]. simpl in Hn.
  destruct (p c) eqn:E; [|by apply elem_of_nil in Hn].
  exists c, t. split; [done|]. split; [done|lia].
Qed.

(** The capture of a rating match starts with a digit or a dot. *)
Lemma take_within_run p n s :
  (n ≤ length (take_while p s))%nat → forallb p (take n s) = true.
Proof.
  revert n. induction s as [|c t IH]; intros [|n]; simpl; try done.
  destruct (p c); simpl; [|lia]. intros Hn. apply IH. lia.
Qed.

(** The capture of a rating match is a non-empty run of digits and
    dots. *)
Lemma match_at_rating start input m :
  match_at rating_regex start input = Some m →
  ∃ whole c t, m = [whole; c :: t] ∧ is_digit_or_dot c = true
               ∧ forallb is_digit_or_dot (c :: t) = true.
Proof.
  unfold match_at.
  destruct (run rating_regex (MState start input [])) as [|s' l] eqn:E;
    [done|]. intros [= <-].
  assert (s' ∈ run rating_regex (MState start input [])) as Hin
    by (rewrite E; left).
  unfold rating_regex in Hin. cbn [run] in Hin.
  apply elem_of_flat_map in Hin as (x & Hx & Hs').
  apply run_tail_groups in Hs'. rewrite Hs'.
  apply list_elem_of_fmap in Hx as (y & -> & Hy).
  apply list_elem_of_fmap in Hy as (n & -> & Hn).
  pose proof (proj1 (plus_lengths_spec _ _ _) Hn) as [_ Hrun].
  apply take_within_run in Hrun.
  apply plus_lengths_head in Hn as (c & t & Hinput & Hc & Hn). simpl in *.
  subst input. replace (start + n - start)%nat with (S (pred n)) by lia.
  replace n with (S (pred n)) in Hrun by lia.
  simpl. by eexists _, c, _.
Qed.

Lemma exec_rating text m :
  exec rating_regex text = Some m →
  ∃ whole c t, m = [whole; c :: t] ∧ is_digit_or_dot c = true
               ∧ forallb is_digit_or_dot (c :: t) = true.
Proof.
  unfold exec. generalize 0%nat.
  induction text as [|d text IH]; intros start; rewrite exec_from_eq;
    destruct (match_at rating_regex start _) eqn:E.
  - intros [= <-]. by eapply match_at_rating.
  - done.
  - intros [= <-]. by eapply match_at_rating.
  - apply IH.
Qed.


Lemma digits_val_nonneg acc ds :
  0 ≤ acc → forallb is_digit ds = true → 0 ≤ digits_val acc ds.
Proof.
  revert acc. induction ds as [|c ds IH]; intros acc Hacc; simpl; [done|].
  intros [Hc Hds]%andb_true_iff. apply IH; [|done].
  unfold is_digit, in_range in Hc. unfold digit_val.
  apply andb_true_iff in Hc as [?%N.leb_le ?%N.leb_le]. lia.
Qed.

Lemma digit_or_dot_cases c :
  is_digit_or_dot c = true → (c = 46 ∨ 48 ≤ c ≤ 57)%N.
Proof.
  unfold is_digit_or_dot, is_digit, in_range.
  intros [[?%N.leb_le ?%N.leb_le]%andb_true_iff|?%N.eqb_eq]%orb_true_iff; lia.
Qed.

Lemma round_half_even_nonneg a b :
  0 ≤ a → 0 < b → 0 ≤ round_half_even a b.
Proof.
  intros Ha Hb. unfold round_half_even.
  pose proof (Z.div_pos a b Ha Hb).
  destruct (2 * (a mod b) ?= b); [destruct (Z.even _)|..]; lia.
Qed.

(** A double made from digits is finite and not negative, or it is
    [Infinity]. *)
Lemma to_double_shape q : rating_shape (Some (to_double q)).
Proof.
  unfold to_double. destruct (Z.leb_spec (Qnum q) 0) as [|Hn]; [done|].
  cbv zeta. destruct (_ && _); [done|]. simpl.
  rewrite Qred_correct. apply Qmult_le_0_compat.
  - change 0%Q with (inject_Z 0). rewrite <- Zle_Qle.
    apply round_half_even_nonneg.
    + apply Z.mul_nonneg_nonneg; [lia|]. apply Z.pow_nonneg. lia.
    + apply Z.mul_pos_pos; [lia|]. apply Z.pow_pos_nonneg; lia.
  - by apply Qpower_0_le.
Qed.

(** [parseFloat] of text that starts with a digit or a dot is [NaN],
    [Infinity] or a number that is not negative. *)
Lemma parseFloat_shape c t :
  is_digit_or_dot c = true → rating_shape (Some (parseFloat (c :: t))).
Proof.
  intros Hc%digit_or_dot_cases. unfold parseFloat.
  assert (is_space c = false) as Hsp.
  { unfold is_space, in_range.
    rewrite !orb_false_iff, !andb_false_iff, !N.leb_gt, !N.eqb_neq. lia. }
  cbn [trimStart]. rewrite Hsp. unfold read_sign at 1.
  destruct (N.eqb_spec c 45); [lia|]. destruct (N.eqb_spec c 43); [lia|].
  assert (is_prefix (js "Infinity") (c :: t) = false) as ->.
  { change (js "Infinity") with (73%N :: js "nfinity"). cbn [is_prefix].
    by rewrite (proj2 (N.eqb_neq 73 c)) by lia. }
  set (s2 := c :: t).
  set (ip := take_while is_digit s2).
  destruct (match drop_while is_digit s2 with
            | [] => ([], [])
            | d :: u =>
                if (d =? 46)%N
                then (take_while is_digit u, drop_while is_digit u)
                else ([], drop_while is_digit s2)
            end) as [fp s4] eqn:E.
  destruct (ip ++ fp) as [|d ds]; [done|]. cbn [signed].
  apply to_double_shape.
Qed.

Section ParserFacts.

Variable JSDOM : jsstring → list Node.
Variable resolve : jsstring → jsstring.

Lemma getRating_shape item :
  ∃ r, getRating item = Normal r ∧ rating_shape r.
Proof.
  unfold getRating.
  destruct (exec rating_regex _) as [m|] eqn:E; [|by exists None].
  apply exec_rating in E as (whole & c & t & -> & Hc & _).
  eexists. split; [done|]. simpl. by apply parseFloat_shape.
Qed.

Lemma getReviews_normal item : ∃ n, getReviews item = Normal n.
Proof. unfold getReviews. destruct (or_null _); eauto. Qed.

Lemma record_of_normal item :
  ∃ r, record_of resolve item = Normal r ∧ rating_shape (rating r).
Proof.
  unfold record_of.
  destruct (getRating_shape item) as (r & -> & Hr).
  destruct (getReviews_normal item) as (n & ->).
  eexists. split; [done|done].
Qed.

Lemma record_of_rating item r :
  record_of resolve item = Normal r → getRating item = Normal (rating r).
Proof.
  unfold record_of.
  destruct (getTitle item); [|done].
  destruct (getRating item); [|done].
  destruct (getReviews item); [|done].
  destruct (getImage resolve item); [|done].
  by intros [= <-].
Qed.

Lemma getRating_read item r :
  getRating item = Normal r → rating_read item r.
Proof.
  unfold getRating, rating_read, rating_text.
  destruct (exec rating_regex _) as [m|] eqn:E; [|by intros [= <-]].
  apply exec_rating in E as (whole & c & t & -> & _ & Hrun).
  intros [= <-]. by exists whole, (c :: t).
Qed.

Lemma mapM_record_of items :
  ∃ records, mapM (record_of resolve) items = Normal records
    ∧ Forall2 (λ item r, record_of resolve item = Normal r) items records
    ∧ Forall (λ r, rating_shape (rating r)) records.
Proof.
  induction items as [|item items (records & Hm & Hall & Hshape)].
  - by exists [].
  - destruct (record_of_normal item) as (r & Hr & Hs).
    exists (r :: records).
    change (mapM (record_of resolve) (item :: items))
      with (y ← record_of resolve item;
            k ← mapM (record_of resolve) items; mret (y :: k)).
    rewrite Hr, Hm. split; [done|]. split; by constructor.
Qed.

(** C7: [parse] returns, for every markup, at most 20 records: one for
    each of the first 20 result items in document order, in that order. *)
Theorem parse_at_most_20 (html : option jsstring) :
  let items := querySelectorAll sel_result (JSDOM (or_empty html)) in
  ∃ records, parse JSDOM resolve html = Normal records
    ∧ (length records ≤ 20)%nat
    ∧ length records = (length items `min` 20)%nat
    ∧ Forall2 (λ item r, record_of resolve item = Normal r)
        (take 20 items) records.
Proof.
  intros items. unfold parse. fold items.
  destruct (mapM_record_of (take 20 items)) as (records & -> & Hall & _).
  exists records. apply Forall2_length in Hall as Hlen.
  rewrite length_take in Hlen. split; [done|].
  split; [lia|]. split; [lia|done].
Qed.

(** C4, amended: [parse] returns one record for each of the first 20
    result items, and the rating of each is read off its item: it is
    [null] when the pattern of [getRating] does not match the item's
    rating text, and otherwise [parseFloat], the nearest double, of the
    group the pattern captures, a non-empty run of digits and dots.  So a
    rating is [null], [NaN], [Infinity] or a finite number that is not
    negative; 5.0 is no bound. *)
Theorem parse_rating_shape (html : option jsstring) :
  ∃ records, parse JSDOM resolve html = Normal records
    ∧ Forall2 (λ item r, rating_read item (rating r)
                         ∧ rating_shape (rating r))
        (take 20 (querySelectorAll sel_result (JSDOM (or_empty html))))
        records.
Proof.
  unfold parse.
  destruct (mapM_record_of
              (take 20 (querySelectorAll sel_result (JSDOM (or_empty html)))))
    as (records & -> & Hall & Hshape).
  exists records. split; [done|].
  induction Hall as [|item r items records Hr Hall IH]; [constructor|].
  apply Forall_cons in Hshape as [Hs Hshape].
  constructor; [|by apply IH].
  split; [|done].
  by apply getRating_read, record_of_rating.
Qed.


End ParserFacts.


(** C4, as stated, fails: the number in front of "out of" is taken as it
    is. *)
Lemma parse_rating_above_5 :
  parse (λ _, [overrated_item]) id None
  = Normal [{| title := None; rating := Some (Fin 6); reviews := None;
               image := None |}]
  ∧ ¬ in_rating_range (Some (Fin 6)).
Proof.
  split; [vm_compute; reflexivity|]. intros [_ H]. by vm_compute in H.
Qed.

(** A run of dots is a match too, and is not a number. *)
Example parse_rating_NaN :
  parse (λ _, [dotted_item]) id None
  = Normal [{| title := None; rating := Some NaN; reviews := None;
               image := None |}].
Proof. vm_compute. reflexivity. Qed.

(** A run of digits beyond the largest double is a match as well. *)
Example parse_rating_Infinity :
  parse (λ _, [endless_item]) id None
  = Normal [{| title := None; rating := Some (Infinity false);
               reviews := None; image := None |}].
Proof. vm_compute. reflexivity. Qed.

(** [parseFloat] gives the nearest double: 0.1 is
    3602879701896397 / 2^55. *)
Example parseFloat_nearest :
  parseFloat (js "0.1") = Fin (3602879701896397 # 36028797018963968)
  ∧ parseFloat (js "1.7976931348623159e308") = Infinity false
  ∧ parseFloat (js "1e-400") = Fin 0.
Proof. repeat split; vm_compute; reflexivity. Qed.

Example record_of_full_item :
  record_of id (element_of full_item)
  = Normal {| title := Some (js "USB Charger"); rating := Some (Fin (9 # 2));
              reviews := Some (Fin 1234);
              image := Some (js "https://m.example/i.jpg") |}.
Proof. vm_compute. reflexivity. Qed.

(** Twenty-five result items give twenty records. *)
Example parse_25_items :
  length (querySelectorAll sel_result (replicate 25 full_item)) = 25%nat
  ∧ ∃ records, parse (λ _, replicate 25 full_item) id None = Normal records
               ∧ length records = 20%nat.
Proof. split; [reflexivity|]. eexists. split; vm_compute; reflexivity. Qed.

(** ** Cache *)

(** C3, as stated, fails: at the instant of expiry the entry is still
    served and stays in the cache. *)
Lemma Cache_get_at_expiry :
  Cache.store one_entry !! js "usb" = Some (Cache.Entry 7%nat 300000)
  ∧ Cache.get (js "usb") 300000 one_entry = (one_entry, Some 7%nat)
  ∧ snd (Cache.get (js "usb") 300000 one_entry) ≠ None.
Proof. split; [|split]; [vm_compute; reflexivity..|vm_compute; discriminate]. Qed.

(** C3, amended: [get] returns [null] and deletes the entry exactly when
    the entry's expiry is before now.  Otherwise, also at the instant now
    equals the expiry, it returns the stored value and leaves the cache as
    it is.  A key without an entry gives [null]. *)
Theorem Cache_get_spec {V} (key : jsstring) (now : Z) (c : Cache.t V) :
  (Cache.store c !! key = None → Cache.get key now c = (c, None))
  ∧ (∀ e, Cache.store c !! key = Some e →
       (Cache.expiry e < now →
        Cache.get key now c
        = (Cache.Make (Cache.ttlMs c) (delete key (Cache.store c)), None)
        ∧ Cache.store (fst (Cache.get key now c)) !! key = None)
       ∧ (now ≤ Cache.expiry e →
          Cache.get key now c = (c, Some (Cache.value e)))
       ∧ (Cache.get key now c
          = (Cache.Make (Cache.ttlMs c) (delete key (Cache.store c)), None)
          ↔ Cache.expiry e < now)).
Proof.
  unfold Cache.get. split; [by intros ->|]. intros e ->.
  destruct (Z.ltb_spec (Cache.expiry e) now) as [Hlt|Hge].
  - split; [|split].
    + intros _. split; [done|]. simpl. apply lookup_delete_eq.
    + lia.
    + done.
  - split; [|split].
    + lia.
    + done.
    + split; [done|lia].
Qed.

Lemma Cache_get_spec_witness :
  Cache.get (js "usb") 300000 one_entry = (one_entry, Some 7%nat)
  ∧ Cache.store (fst (Cache.get (js "usb") 300001 one_entry)) !! js "usb"
    = None.
Proof.
  pose proof (proj2 (Cache_get_spec (js "usb") 300000 one_entry)
                (Cache.Entry 7%nat 300000)) as H0.
  pose proof (proj2 (Cache_get_spec (js "usb") 300001 one_entry)
                (Cache.Entry 7%nat 300000)) as H1.
  split.
  - apply H0; [vm_compute; reflexivity|simpl; lia].
  - apply H1; [vm_compute; reflexivity|simpl; lia].
Defined.

(** ** AmazonScraperService *)

Section ServiceFacts.

Variable up : Upstream.
Variable httpClient : AmazonHttpClient.
Variable JSDOM : jsstring → list Node.
Variable resolve : jsstring → jsstring.

(** What a call that misses the cache and returns has done. *)
Lemma scrape_miss raw k st st1 r :
  KeywordValidator.validate raw = Normal k →
  snd (Cache.get k (clock (world st)) (cache st)) = None →
  scrape up httpClient JSDOM resolve raw st = Some (st1, Normal r) →
  ∃ records,
    fetches st1 = S (fetches st)
    ∧ r = length (heap st)
    ∧ heap st1 = heap st ++ [records]
    ∧ Cache.ttlMs (cache st1) = Cache.ttlMs (cache st)
    ∧ Cache.store (cache st1) !! k
      = Some (Cache.Entry r (clock (world st1) + Cache.ttlMs (cache st))).
Proof.
  intros Hv Hmiss. unfold scrape. rewrite Hv.
  destruct (Cache.get k (clock (world st)) (cache st)) as [c cached] eqn:G.
  simpl in Hmiss. subst cached.
  destruct (AmazonUrlBuilder.build k) as [url|]; [|done].
  destruct (fetchHtml _ _ _ _) as [[w [html|]]|]; [|done..].
  destruct (parse JSDOM resolve html) as [records|]; [|done].
  simpl. intros [= <- <-]. exists records. simpl.
  assert (Cache.ttlMs c = Cache.ttlMs (cache st)) as Httl.
  { unfold Cache.get in G. destruct (Cache.store (cache st) !! k) as [e|];
      [destruct (Cache.expiry e <? clock (world st))|];
      by simplify_eq. }
  rewrite Httl. repeat (split; [done|]). apply lookup_insert_eq.
Qed.

(** A call that finds a live entry returns it and fetches nothing. *)
Lemma scrape_hit raw k st e :
  KeywordValidator.validate raw = Normal k →
  Cache.store (cache st) !! k = Some e →
  clock (world st) ≤ Cache.expiry e →
  scrape up httpClient JSDOM resolve raw st
  = Some (log (js "[CACHE HIT] Keyword: " ++ k) st, Normal (Cache.value e)).
Proof.
  intros Hv He Hle. unfold scrape, Cache.get. rewrite Hv, He.
  destruct (Z.ltb_spec (Cache.expiry e) (clock (world st))); [lia|].
  by destruct st as [[]].
Qed.

(** C9: when a call of [scrape] with a valid keyword misses the cache and
    returns, a second call with that keyword no later than the TTL after
    the entry was stored hits the cache: it returns the same array, whose
    contents are unchanged, and puts nothing on the wire, so the two calls
    make exactly one fetch. *)
Theorem scrape_twice_one_fetch raw k st st1 r t :
  KeywordValidator.validate raw = Normal k →
  snd (Cache.get k (clock (world st)) (cache st)) = None →
  scrape up httpClient JSDOM resolve raw st = Some (st1, Normal r) →
  t ≤ clock (world st1) + Cache.ttlMs (cache st1) →
  ∃ st2 records,
    scrape up httpClient JSDOM resolve raw (at_time t st1)
    = Some (st2, Normal r)
    ∧ fetches st1 = S (fetches st)
    ∧ fetches st2 = fetches st1
    ∧ requests (world st2) = requests (world st1)
    ∧ heap st1 !! r = Some records
    ∧ heap st2 !! r = Some records
    ∧ last (console st2) = Some (js "[CACHE HIT] Keyword: " ++ k).
Proof.
  intros Hv Hmiss Hrun Ht.
  destruct (scrape_miss _ _ _ _ _ Hv Hmiss Hrun)
    as (records & Hf & -> & Hh & Httl & Hstore).
  rewrite Httl in Ht.
  eexists _, records. split.
  { by apply (scrape_hit raw k (at_time t st1) _ Hv Hstore). }
  simpl. rewrite Hh. split; [done|]. split; [done|]. split; [done|].
  rewrite last_snoc.
  by rewrite lookup_app_r, Nat.sub_diag by done.
Qed.

End ServiceFacts.

Lemma scrape_twice_one_fetch_witness :
  ∃ st2 records,
    scrape serving (new_AmazonHttpClient []) (λ _, [full_item]) id
      (Some (js "usb charger")) fresh = Some (after_first, Normal 0%nat)
    ∧ scrape serving (new_AmazonHttpClient []) (λ _, [full_item]) id
        (Some (js "usb charger")) (at_time 300120 after_first)
      = Some (st2, Normal 0%nat)
    ∧ fetches st2 = 1%nat
    ∧ heap st2 !! 0%nat = Some records.
Proof.
  assert (scrape serving (new_AmazonHttpClient []) (λ _, [full_item]) id
            (Some (js "usb charger")) fresh
          = Some (after_first, Normal 0%nat)) as H1
    by (vm_compute; reflexivity).
  destruct (scrape_twice_one_fetch serving (new_AmazonHttpClient [])
              (λ _, [full_item]) id (Some (js "usb charger"))
              (js "usb charger") fresh after_first 0%nat 300120)
    as (st2 & records & H2 & Hf1 & Hf2 & _ & _ & Hh & _).
  - vm_compute. reflexivity.
  - vm_compute. reflexivity.
  - exact H1.
  - vm_compute. discriminate.
  - exists st2, records. split; [exact H1|]. split; [exact H2|].
    split; [by rewrite Hf2, Hf1|exact Hh].
Defined.

(** * Further properties *)

(** ** Cache: how [set] and [get] compose *)

(** X1: [get] after [set] on the same key: up to and including the expiry
    ([now + ttlMs]) it returns the value stored and leaves the cache as it
    is; after it, it returns [null] and the entry is gone. *)
Theorem Cache_set_get {V} (key : jsstring) (v : V) (now later : Z)
    (c : Cache.t V) :
  (later ≤ now + Cache.ttlMs c →
   Cache.get key later (Cache.set key v now c)
   = (Cache.set key v now c, Some v))
  ∧ (now + Cache.ttlMs c < later →
     Cache.get key later (Cache.set key v now c)
     = (Cache.Make (Cache.ttlMs c) (delete key (Cache.store c)), None)).
Proof.
  unfold Cache.get, Cache.set. simpl. rewrite lookup_insert_eq. simpl.
  split; intros H.
  - by destruct (Z.ltb_spec (now + Cache.ttlMs c) later); [lia|].
  - destruct (Z.ltb_spec (now + Cache.ttlMs c) later); [|lia].
    by rewrite delete_insert_eq.
Qed.

Lemma Cache_set_get_witness :
  Cache.get (js "usb") 300000 (Cache.set (js "usb") 7%nat 0
                                 (Cache.new CACHE_TTL_MS))
  = (Cache.set (js "usb") 7%nat 0 (Cache.new CACHE_TTL_MS), Some 7%nat)
  ∧ Cache.get (js "usb") 300001 (Cache.set (js "usb") 7%nat 0
                                   (Cache.new CACHE_TTL_MS))
    = (Cache.Make CACHE_TTL_MS (delete (js "usb") ∅), None).
Proof.
  split.
  - apply (proj1 (Cache_set_get (js "usb") 7%nat 0 300000
                    (Cache.new CACHE_TTL_MS))). vm_compute. discriminate.
  - apply (proj2 (Cache_set_get (js "usb") 7%nat 0 300001
                    (Cache.new CACHE_TTL_MS))). vm_compute. reflexivity.
Defined.

(** X2: a second [set] on a key replaces the entry as a whole, value
    and expiry: the cache is the one a single [set] gives, and [set] adds
    no key but its own. *)
Theorem Cache_set_overwrites {V} (key : jsstring) (v1 v2 : V) (t1 t2 : Z)
    (c : Cache.t V) :
  Cache.set key v2 t2 (Cache.set key v1 t1 c) = Cache.set key v2 t2 c
  ∧ Cache.store (Cache.set key v2 t2 (Cache.set key v1 t1 c)) !! key
    = Some (Cache.Entry v2 (t2 + Cache.ttlMs c))
  ∧ dom (Cache.store (Cache.set key v1 t1 c))
    = {[key]} ∪ dom (Cache.store c).
Proof.
  unfold Cache.set. simpl. rewrite insert_insert_eq, lookup_insert_eq.
  by rewrite dom_insert_L.
Qed.

Lemma Cache_get_other {V} (key other : jsstring) (now : Z) (c : Cache.t V) :
  key ≠ other →
  Cache.store (fst (Cache.get key now c)) !! other = Cache.store c !! other.
Proof.
  intros Hne. unfold Cache.get. destruct (Cache.store c !! key) as [e|]; [|done].
  destruct (Cache.expiry e <? now); [|done]. simpl.
  by rewrite lookup_delete_ne.
Qed.

Lemma Cache_get_ttl {V} (key : jsstring) (now : Z) (c : Cache.t V) :
  Cache.ttlMs (fst (Cache.get key now c)) = Cache.ttlMs c.
Proof.
  unfold Cache.get. destruct (Cache.store c !! key) as [e|]; [|done].
  by destruct (Cache.expiry e <? now).
Qed.

Lemma Cache_get_lookup {V} (other : jsstring) (later : Z) (c c' : Cache.t V) :
  Cache.store c' !! other = Cache.store c !! other →
  snd (Cache.get other later c') = snd (Cache.get other later c).
Proof.
  intros H. unfold Cache.get. rewrite H.
  destruct (Cache.store c !! other) as [e|]; [|done].
  by destruct (Cache.expiry e <? later).
Qed.

(** X3: neither a [set] nor a [get] (with the eviction it may make) on
    one key changes what [get] returns for another key. *)
Theorem Cache_keys_independent {V} (key other : jsstring) (v : V)
    (now later : Z) (c : Cache.t V) :
  key ≠ other →
  snd (Cache.get other later (Cache.set key v now c))
  = snd (Cache.get other later c)
  ∧ snd (Cache.get other later (fst (Cache.get key now c)))
    = snd (Cache.get other later c).
Proof.
  intros Hne. split.
  - apply Cache_get_lookup. unfold Cache.set. simpl.
    by rewrite lookup_insert_ne.
  - apply Cache_get_lookup. by apply Cache_get_other.
Qed.

Lemma Cache_keys_independent_witness :
  snd (Cache.get (js "usb") 10 (Cache.set (js "hdmi") 8%nat 5 one_entry))
  = snd (Cache.get (js "usb") 10 one_entry).
Proof.
  refine (proj1 (Cache_keys_independent (js "hdmi") (js "usb") 8%nat 5 10
                   one_entry _)).
  vm_compute. discriminate.
Defined.

Lemma Cache_get_missing {V} (key : jsstring) (now : Z) (c : Cache.t V) :
  Cache.store c !! key = None → Cache.get key now c = (c, None).
Proof. intros H. unfold Cache.get. by rewrite H. Qed.

(** X4: [get] never adds an entry and keeps the TTL; asked again at the
    same time it gives the same answer; and once it has answered [null] for
    a key it answers [null] at every time until the key is set again. *)
Theorem Cache_get_settles {V} (key : jsstring) (now : Z) (c : Cache.t V) :
  Cache.store (fst (Cache.get key now c)) ⊆ Cache.store c
  ∧ Cache.ttlMs (fst (Cache.get key now c)) = Cache.ttlMs c
  ∧ Cache.get key now (fst (Cache.get key now c)) = Cache.get key now c
  ∧ (snd (Cache.get key now c) = None →
     ∀ later, Cache.get key later (fst (Cache.get key now c))
              = (fst (Cache.get key now c), None)).
Proof.
  split; [|split; [apply Cache_get_ttl|]].
  - unfold Cache.get. destruct (Cache.store c !! key) as [e|]; [|done].
    destruct (Cache.expiry e <? now); [|done]. simpl. apply delete_subseteq.
  - destruct (Cache.store c !! key) as [e|] eqn:E.
    + destruct (Cache.expiry e <? now) eqn:L.
      * assert (Cache.get key now c
                = (Cache.Make (Cache.ttlMs c) (delete key (Cache.store c)),
                   None)) as -> by (unfold Cache.get; by rewrite E, L).
        simpl. split; [|intros _ later]; apply Cache_get_missing;
          apply lookup_delete_eq.
      * assert (Cache.get key now c = (c, Some (Cache.value e))) as Hg
          by (unfold Cache.get; by rewrite E, L).
        rewrite Hg. simpl. by rewrite Hg.
    + rewrite (Cache_get_missing key now c E). simpl.
      split; [|intros _ later]; by apply Cache_get_missing.
Qed.

Lemma Cache_get_settles_witness :
  Cache.get (js "usb") 5
    (fst (Cache.get (js "usb") 300001 one_entry))
  = (fst (Cache.get (js "usb") 300001 one_entry), None).
Proof.
  apply (proj2 (proj2 (proj2 (Cache_get_settles (js "usb") 300001
                                one_entry)))).
  vm_compute. reflexivity.
Defined.

(** ** KeywordValidator: validating twice *)

Lemma trimStart_id s :
  (∀ c, head s = Some c → is_space c = false) → trimStart s = s.
Proof.
  destruct s as [|c t]; [done|]. intros H. simpl. by rewrite (H c).
Qed.

Lemma trimEnd_id s :
  (∀ c, last s = Some c → is_space c = false) → trimEnd s = s.
Proof.
  intros H. unfold trimEnd. rewrite trimStart_id; [apply rev_involutive|].
  intros c Hc. apply H. rewrite rev_alt in Hc.
  change (head (reverse s) = Some c) in Hc. by rewrite head_reverse in Hc.
Qed.

Lemma trim_trim s : trim (trim s) = trim s.
Proof.
  destruct (trim_spec s) as (_ & _ & _ & _ & _ & Hh & Hl).
  unfold trim at 1. rewrite (trimStart_id _ Hh). by apply trimEnd_id.
Qed.

(** X5: a non-empty keyword that [validate] returned is accepted
    unchanged when validated again. *)
Theorem validate_idempotent (raw : option jsstring) (k : jsstring) :
  KeywordValidator.validate raw = Normal k →
  k ≠ [] →
  KeywordValidator.validate (Some k) = Normal k.
Proof.
  destruct raw as [s|]; [|done]. rewrite !validate_cases.
  destruct (decide (s = [])); [done|].
  destruct (Nat.ltb_spec MAX_KEYWORD_LENGTH (length s)); [done|].
  destruct (forallb allowed s) eqn:F; [|done]. intros [= <-] Hk.
  rewrite decide_False by done.
  destruct (Nat.ltb_spec MAX_KEYWORD_LENGTH (length (trim s)));
    [pose proof (trim_length s); lia|].
  by rewrite trim_forallb, trim_trim.
Qed.

Lemma validate_idempotent_witness :
  KeywordValidator.validate (Some (js "usb charger")) = Normal (js "usb charger").
Proof.
  apply (validate_idempotent (Some (js "  usb charger ")) (js "usb charger")).
  - reflexivity.
  - discriminate.
Defined.

(** ** AmazonUrlBuilder *)

(** Linear arithmetic with division and remainder by constants. *)
Ltac dlia := zify; Z.to_euclidean_division_equations; lia.

Lemma allowed_code_unit c :
  allowed c = true → (c < 55296 ∨ c = 65279)%N.
Proof.
  unfold allowed, is_word, is_space, is_hyphen, is_digit, in_range.
  rewrite !orb_true_iff, !andb_true_iff, !N.leb_le, !N.eqb_eq. lia.
Qed.

Lemma hex_digit_safe n : (n < 16)%N → uri_unreserved (hex_digit n) = true.
Proof.
  intros Hn. unfold hex_digit, uri_unreserved, is_digit, in_range.
  destruct (N.ltb_spec n 10);
    rewrite !orb_true_iff, !andb_true_iff, !N.leb_le, !N.eqb_eq; lia.
Qed.

Lemma hex_val_digit n : (n < 16)%N → hex_val (hex_digit n) = n.
Proof.
  intros Hn. unfold hex_val, hex_digit, is_digit, in_range.
  destruct (N.ltb_spec n 10).
  - rewrite (proj2 (N.leb_le 48 (48 + n))), (proj2 (N.leb_le (48 + n) 57))
      by lia. simpl. lia.
  - rewrite (proj2 (N.leb_gt (55 + n) 57)) by lia.
    rewrite andb_false_r. lia.
Qed.

Lemma utf8_octets cp :
  (cp < 1114112)%N → Forall (λ b, (b < 256)%N) (utf8 cp).
Proof.
  intros H. unfold utf8.
  destruct (N.ltb_spec cp 128); [|destruct (N.ltb_spec cp 2048);
    [|destruct (N.ltb_spec cp 65536)]];
    repeat (apply Forall_cons_2; [dlia|]); apply Forall_nil_2.
Qed.

Lemma percent_safe bs :
  Forall (λ b, (b < 256)%N) bs →
  forallb url_safe (flat_map percent bs) = true.
Proof.
  induction 1 as [|b bs Hb _ IH]; [done|].
  cbn [flat_map percent app forallb]. rewrite IH. unfold url_safe.
  rewrite !hex_digit_safe by dlia. done.
Qed.

Lemma unpercent_safe c t :
  uri_unreserved c = true → unpercent (c :: t) = c :: unpercent t.
Proof.
  intros Hc. simpl. destruct (N.eqb_spec c 37) as [->|]; [|done].
  by vm_compute in Hc.
Qed.

Lemma unpercent_percent bs t :
  Forall (λ b, (b < 256)%N) bs →
  unpercent (flat_map percent bs ++ t) = bs ++ unpercent t.
Proof.
  induction 1 as [|b bs Hb _ IH]; [done|].
  cbn [flat_map percent app unpercent]. rewrite N.eqb_refl.
  rewrite IH, !hex_val_digit by dlia. f_equal. dlia.
Qed.

(** The octets of a code point are read back as its code units. *)
Lemma unutf8_utf8_bmp c t :
  (c < 65536)%N → unutf8 (utf8 c ++ t) = c :: unutf8 t.
Proof.
  intros H. unfold utf8.
  destruct (N.ltb_spec c 128) as [H1|H1];
    [|destruct (N.ltb_spec c 2048) as [H2|H2];
      [|destruct (N.ltb_spec c 65536) as [H3|H3]; [|lia]]];
    cbn [app unutf8].
  - by rewrite (proj2 (N.ltb_lt c 128)) by done.
  - rewrite (proj2 (N.ltb_ge _ 128)), (proj2 (N.ltb_lt _ 224)) by dlia.
    f_equal. dlia.
  - rewrite (proj2 (N.ltb_ge _ 128)), (proj2 (N.ltb_ge _ 224)),
      (proj2 (N.ltb_lt _ 240)) by dlia.
    f_equal. dlia.
Qed.

Lemma unutf8_utf8_pair c d t :
  is_lead_surrogate c = true → is_trail_surrogate d = true →
  unutf8 (utf8 ((c - 55296) * 1024 + (d - 56320) + 65536)%N ++ t)
  = c :: d :: unutf8 t.
Proof.
  unfold is_lead_surrogate, is_trail_surrogate, in_range.
  rewrite !andb_true_iff, !N.leb_le. intros [Hc1 Hc2] [Hd1 Hd2].
  set (cp := ((c - 55296) * 1024 + (d - 56320) + 65536)%N).
  assert (65536 ≤ cp < 1114112)%N as Hcp by (unfold cp; lia).
  unfold utf8.
  destruct (N.ltb_spec cp 128); [lia|].
  destruct (N.ltb_spec cp 2048); [lia|].
  destruct (N.ltb_spec cp 65536); [lia|].
  cbn [app unutf8].
  rewrite (proj2 (N.ltb_ge _ 128)), (proj2 (N.ltb_ge _ 224)),
    (proj2 (N.ltb_ge _ 240)) by dlia.
  cbv zeta.
  assert (((240 + cp `div` 262144 - 240) * 262144
           + (128 + (cp `div` 4096) `mod` 64 - 128) * 4096
           + (128 + (cp `div` 64) `mod` 64 - 128) * 64
           + (128 + cp `mod` 64 - 128))%N = cp) as -> by dlia.
  f_equal; [unfold cp; dlia|]. f_equal. unfold cp. dlia.
Qed.

Lemma unreserved_ascii c : uri_unreserved c = true → (c < 128)%N.
Proof.
  unfold uri_unreserved, is_digit, in_range.
  rewrite !orb_true_iff, !andb_true_iff, !N.leb_le, !N.eqb_eq. lia.
Qed.

(** [unescape] undoes [encodeURIComponent] on every string of code
    units. *)
Lemma unescape_encode s out :
  well_formed_string s →
  encodeURIComponent s = Normal out → unescape out = s.
Proof.
  remember (length s) as n eqn:Hn. revert s out Hn.
  induction n as [n IH] using lt_wf_ind. intros s out Hn Hwf.
  destruct s as [|c t]; [by intros [= <-]|].
  apply Forall_cons in Hwf as [Hc Ht]. cbn [encodeURIComponent].
  destruct (uri_unreserved c) eqn:Hu.
  { destruct (encodeURIComponent t) as [out'|] eqn:E; [|done].
    intros [= <-]. unfold unescape. rewrite unpercent_safe by done.
    cbn [unutf8]. rewrite (proj2 (N.ltb_lt c 128))
      by by apply unreserved_ascii.
    f_equal. apply (IH (length t)); [simpl in Hn; lia|done..]. }
  destruct (is_trail_surrogate c) eqn:Htr; [done|].
  destruct (is_lead_surrogate c) eqn:Hld.
  - destruct t as [|d t']; [done|].
    destruct (is_trail_surrogate d) eqn:Hd; [|done].
    apply Forall_cons in Ht as [_ Ht'].
    destruct (encodeURIComponent t') as [out'|] eqn:E; [|done].
    intros [= <-]. unfold unescape.
    rewrite unpercent_percent.
    2:{ apply utf8_octets. unfold is_lead_surrogate, is_trail_surrogate,
          in_range in *.
        apply andb_true_iff in Hld as [?%N.leb_le ?%N.leb_le].
        apply andb_true_iff in Hd as [?%N.leb_le ?%N.leb_le]. lia. }
    rewrite unutf8_utf8_pair by done. do 2 f_equal.
    apply (IH (length t')); [simpl in Hn; lia|done..].
  - destruct (encodeURIComponent t) as [out'|] eqn:E; [|done].
    intros [= <-]. unfold unescape.
    rewrite unpercent_percent by (apply utf8_octets; lia).
    rewrite unutf8_utf8_bmp by done. f_equal.
    apply (IH (length t)); [simpl in Hn; lia|done..].
Qed.

(** X8: [build] never gives two different strings of code units the
    same URL. *)
Theorem build_injective (k1 k2 url : jsstring) :
  well_formed_string k1 → well_formed_string k2 →
  AmazonUrlBuilder.build k1 = Normal url →
  AmazonUrlBuilder.build k2 = Normal url →
  k1 = k2.
Proof.
  intros H1 H2. unfold AmazonUrlBuilder.build.
  destruct (encodeURIComponent k1) as [q1|] eqn:E1; [|done].
  destruct (encodeURIComponent k2) as [q2|] eqn:E2; [|done].
  simpl. intros [= <-] [= Hq].
  rewrite <- (unescape_encode k1 q1), <- (unescape_encode k2 q2) by done.
  by rewrite Hq.
Qed.

Lemma build_injective_witness :
  AmazonUrlBuilder.build (js "usb charger")
  = Normal (js "https://www.amazon.com/s?k=usb%20charger")
  ∧ js "usb charger" = js "usb charger".
Proof.
  split; [reflexivity|].
  apply (build_injective _ _ (js "https://www.amazon.com/s?k=usb%20charger")).
  - repeat (apply Forall_cons_2; [reflexivity|]). apply Forall_nil_2.
  - repeat (apply Forall_cons_2; [reflexivity|]). apply Forall_nil_2.
  - reflexivity.
  - reflexivity.
Defined.

Lemma encode_safe s :
  Forall (λ c, (c < 55296 ∨ c = 65279)%N) s →
  ∃ q, encodeURIComponent s = Normal q ∧ forallb url_safe q = true.
Proof.
  induction 1 as [|c t Hc _ (q & E & Hq)]; [by exists []|].
  cbn [encodeURIComponent]. rewrite E.
  destruct (uri_unreserved c) eqn:Hu.
  { exists (c :: q). split; [done|]. simpl. unfold url_safe at 1.
    by rewrite Hu, Hq. }
  assert (is_trail_surrogate c = false ∧ is_lead_surrogate c = false)
    as [-> ->].
  { unfold is_lead_surrogate, is_trail_surrogate, in_range.
    rewrite !andb_false_iff, !N.leb_gt. lia. }
  eexists. split; [done|]. rewrite forallb_app, Hq, percent_safe; [done|].
  apply utf8_octets. lia.
Qed.

Lemma allowed_string k :
  forallb allowed k = true → Forall (λ c, (c < 55296 ∨ c = 65279)%N) k.
Proof.
  intros Hall. apply Forall_forall. intros c Hc. apply allowed_code_unit.
  rewrite forallb_forall in Hall. by apply Hall, list_elem_of_In.
Qed.

Lemma validated_allowed raw k :
  KeywordValidator.validate raw = Normal k → forallb allowed k = true.
Proof.
  destruct raw as [s|]; [|done]. rewrite validate_cases.
  destruct (decide (s = [])); [done|].
  destruct (MAX_KEYWORD_LENGTH <? length s)%nat; [done|].
  destruct (forallb allowed s) eqn:F; [|done].
  intros [= <-]. by apply trim_forallb.
Qed.

(** The URL of a validated keyword can always be built. *)
Lemma validated_builds raw k :
  KeywordValidator.validate raw = Normal k →
  ∃ q, AmazonUrlBuilder.build k = Normal (search_prefix ++ q)
       ∧ encodeURIComponent k = Normal q
       ∧ forallb url_safe q = true.
Proof.
  intros Hall%validated_allowed.
  destruct (encode_safe k (allowed_string k Hall)) as (q & E & Hq).
  exists q. unfold AmazonUrlBuilder.build. by rewrite E.
Qed.

(** X6: for every keyword [validate] returns, [build] does not throw:
    it gives the fixed search prefix followed by a query value made only of
    unreserved characters and percent signs, from which the keyword is read
    back. *)
Theorem build_validated (raw : option jsstring) (k : jsstring) :
  KeywordValidator.validate raw = Normal k →
  ∃ q, AmazonUrlBuilder.build k = Normal (search_prefix ++ q)
       ∧ forallb url_safe q = true
       ∧ unescape q = k.
Proof.
  intros Hv. destruct (validated_builds raw k Hv) as (q & Hb & E & Hq).
  exists q. split; [done|]. split; [done|].
  apply (unescape_encode k q); [|done].
  apply validated_allowed in Hv. apply allowed_string in Hv.
  eapply Forall_impl; [exact Hv|]. simpl. lia.
Qed.

Lemma build_validated_witness :
  ∃ q, AmazonUrlBuilder.build (js "usb charger") = Normal (search_prefix ++ q)
       ∧ forallb url_safe q = true
       ∧ unescape q = js "usb charger".
Proof.
  apply (build_validated (Some (js " usb charger "))). reflexivity.
Defined.

(** X7: a keyword of unreserved characters only (letters, digits,
    hyphen, underscore and the like) is put into the URL as it is. *)
Theorem build_verbatim (k : jsstring) :
  forallb uri_unreserved k = true →
  AmazonUrlBuilder.build k = Normal (search_prefix ++ k).
Proof.
  intros H. unfold AmazonUrlBuilder.build.
  assert (encodeURIComponent k = Normal k) as ->; [|done].
  induction k as [|c t IH]; [done|]. simpl in H.
  apply andb_true_iff in H as [Hc Ht]. cbn [encodeURIComponent].
  by rewrite Hc, IH.
Qed.

Lemma build_verbatim_witness :
  AmazonUrlBuilder.build (js "usb-c_hub")
  = Normal (search_prefix ++ js "usb-c_hub").
Proof. apply build_verbatim. reflexivity. Defined.

(** ** AmazonHttpClient: success, bounds and impossible outcomes *)

Lemma axios_get_2xx up url w resp :
  reply up (length (requests w)) url = Answered resp →
  200 ≤ status resp < 300 →
  axios_get up fetch_config url w = (fst (send up url w), inl resp).
Proof.
  intros Hr Hs. unfold axios_get. simpl. rewrite Hr.
  destruct (location resp);
    [destruct (Z.leb_spec 300 (status resp)); [lia|]; simpl|];
    rewrite (proj2 (Z.leb_le 200 (status resp))),
      (proj2 (Z.ltb_lt (status resp) 400)) by lia;
    by rewrite orb_true_r.
Qed.

(** After [k] answers of 503 the loop, entered with [attempt = a], returns
    the page that comes next. *)
Lemma fetch_loop_recovers up ua url k :
  ∀ a fuel w resp,
    (a + k ≤ 3)%nat → (k < fuel)%nat →
    (∀ i, (i < k)%nat →
       ∃ r, reply up (length (requests w) + i) url = Answered r
            ∧ status r = 503) →
    reply up (length (requests w) + k) url = Answered resp →
    200 ≤ status resp < 300 →
    ∃ w', fetch_loop up (new_AmazonHttpClient ua) fuel url a w
          = Some (w', Normal (Some (data resp)))
      ∧ requests w' = requests w ++ replicate (S k) url
      ∧ sleeps w' = sleeps w ++ backoff 1000 a k.
Proof.
  induction k as [|k IH]; intros a fuel w resp Ha Hf H503 Hok Hs;
    (destruct fuel as [|fuel]; [lia|]).
  - rewrite Nat.add_0_r in Hok. cbn [fetch_loop].
    cbn [maxRetries new_AmazonHttpClient].
    destruct (Nat.leb_spec a 3); [|lia].
    rewrite (axios_get_2xx _ _ _ _ Hok Hs). eexists. split; [done|].
    simpl. by rewrite app_nil_r.
  - destruct (H503 0%nat) as (r & Hr & Hr503); [lia|].
    rewrite Nat.add_0_r in Hr.
    rewrite (fetch_loop_503 _ _ _ _ _ _ r) by (done || lia).
    destruct (Nat.ltb_spec 3 (S a)); [lia|].
    set (w1 := sleep _ _).
    assert (length (requests w1) = S (length (requests w))) as Hlen.
    { unfold w1. simpl. rewrite length_app. simpl. lia. }
    destruct (IH (S a) fuel w1 resp) as (w' & Hrun & Hreq & Hsl);
      [lia|lia| | |done|].
    + intros i Hi. rewrite Hlen.
      destruct (H503 (S i)) as (r' & Hr' & ?); [lia|].
      exists r'. split; [|done]. rewrite <- Hr'. f_equal. lia.
    + rewrite Hlen, <- Hok. f_equal. lia.
    + exists w'. split; [done|]. rewrite Hreq, Hsl. unfold w1. simpl.
      rewrite <- !app_assoc. done.
Qed.

(** X9: with the default client, when the first [k <= 3] answers are
    503 and the next has a status in 200-299, [fetchHtml] returns the body
    of that answer after exactly [k + 1] requests and [k] waits of 1000,
    2000, ... ms. *)
Theorem fetchHtml_recovers_after (up : Upstream) (ua url : jsstring)
    (w : World) (k : nat) (resp : Response) :
  (k ≤ 3)%nat →
  (∀ i, (i < k)%nat →
     ∃ r, reply up (length (requests w) + i) url = Answered r
          ∧ status r = 503) →
  reply up (length (requests w) + k) url = Answered resp →
  200 ≤ status resp < 300 →
  ∃ w', fetchHtml up (new_AmazonHttpClient ua) url w
        = Some (w', Normal (Some (data resp)))
    ∧ requests w' = requests w ++ replicate (S k) url
    ∧ sleeps w' = sleeps w ++ map (λ i, 1000 * Z.of_nat i) (seq 1 k).
Proof.
  intros Hk H503 Hok Hs. unfold fetchHtml.
  by apply (fetch_loop_recovers up ua url k 0); [lia|simpl; lia|..].
Qed.

Lemma fetchHtml_recovers_after_witness :
  ∃ w', fetchHtml recovering (new_AmazonHttpClient []) search_url world0
        = Some (w', Normal (Some (js "<html></html>")))
    ∧ requests w' = requests world0 ++ replicate 3 search_url
    ∧ sleeps w' = sleeps world0 ++ [1000; 2000].
Proof.
  apply (fetchHtml_recovers_after recovering [] search_url world0 2
           {| status := 200; location := None; data := js "<html></html>" |}).
  - lia.
  - intros i Hi.
    exists {| status := 503; location := None; data := [] |}.
    split; [|reflexivity]. simpl.
    destruct i as [|[|i]]; [reflexivity..|lia].
  - reflexivity.
  - simpl. lia.
Defined.

Section HttpClientBounds.

Variable up : Upstream.
Variable this : AmazonHttpClient.

(** Entered with [attempt] within the budget, the loop ends in a page or
    in an [Error], never in [undefined]. *)
Lemma fetch_loop_outcome fuel url attempt w w' r :
  (attempt ≤ maxRetries this)%nat →
  fetch_loop up this fuel url attempt w = Some (w', r) →
  (∃ html, r = Normal (Some html)) ∨ (∃ m, r = Throw (Error m)).
Proof.
  revert attempt w. induction fuel as [|fuel IH]; intros attempt w Ha;
    [done|]. simpl.
  destruct (Nat.leb_spec attempt (maxRetries this)); [|lia].
  destruct (axios_get up fetch_config url w) as [w1 [resp|err]];
    [intros [= <- <-]; eauto|].
  destruct (truthy_status _ && _ && _); [intros [= <- <-]; eauto|].
  destruct (bool_decide _); [|intros [= <- <-]; eauto].
  destruct (Nat.ltb_spec (maxRetries this) (S attempt));
    [intros [= <- <-]; eauto|].
  apply IH. lia.
Qed.

(** Every iteration puts between 1 and [maxRedirects + 1] requests on the
    wire, the first of them for [url]. *)
Lemma fetch_loop_requests fuel url attempt w w' r :
  (attempt ≤ maxRetries this)%nat →
  fetch_loop up this fuel url attempt w = Some (w', r) →
  ∃ more, requests w' = requests w ++ url :: more
    ∧ (S (length more) ≤ (S (maxRetries this) - attempt) * 6)%nat.
Proof.
  revert attempt w. induction fuel as [|fuel IH]; intros attempt w Ha;
    [done|]. simpl.
  destruct (Nat.leb_spec attempt (maxRetries this)); [|lia].
  destruct (axios_get up fetch_config url w) as [w1 res] eqn:E.
  apply axios_get_world in E as (_ & more & Hreq & Hlen). simpl in Hlen.
  assert (∃ more0, requests w1 = requests w ++ url :: more0
            ∧ (S (length more0) ≤ (S (maxRetries this) - attempt) * 6)%nat)
    as Hone by (exists more; split; [done|lia]).
  destruct res as [resp|err]; [by intros [= <- <-]|].
  destruct (truthy_status _ && _ && _); [by intros [= <- <-]|].
  destruct (bool_decide _); [|by intros [= <- <-]].
  destruct (Nat.ltb_spec (maxRetries this) (S attempt));
    [by intros [= <- <-]|].
  intros Hrun. apply IH in Hrun as (more' & Hreq' & Hlen'); [|lia].
  simpl in Hreq'. rewrite Hreq, <- app_assoc in Hreq'. simpl in Hreq'.
  exists (more ++ url :: more'). split; [done|].
  rewrite length_app. simpl. lia.
Qed.

(** X10: every call of [fetchHtml] ends, whatever the client, the
    server and the URL, and it ends in a string or in an [Error]: it never
    returns [undefined], and the error is never the "Redirect blocked"
    one. *)
Theorem fetchHtml_outcomes (url : jsstring) (w : World) :
  ∃ w' r, fetchHtml up this url w = Some (w', r)
    ∧ ((∃ html, r = Normal (Some html))
       ∨ (∃ m, r = Throw (Error m)
               ∧ ∀ s, m ≠ "Redirect blocked (status " +:+ s +:+ ")")).
Proof.
  destruct (fetchHtml_total up this url w) as (w' & r & _ & H & _).
  exists w', r. split; [done|].
  destruct (fetch_loop_outcome _ _ _ _ _ _ (Nat.le_0_l _) H)
    as [?|[m ->]]; [by left|].
  right. exists m. split; [done|]. intros s.
  by apply (fetch_loop_never_blocks _ _ _ _ _ _ _ _ s) in H.
Qed.

(** X11: every call of [fetchHtml] ends, and by then it has put at
    least one request on the wire, the first for the URL given, and at
    most [6 * (maxRetries + 1)] (24 for the default client). *)
Theorem fetchHtml_request_bound (url : jsstring) (w : World) :
  ∃ w' r more, fetchHtml up this url w = Some (w', r)
    ∧ requests w' = requests w ++ url :: more
    ∧ (S (length more) ≤ S (maxRetries this) * 6)%nat.
Proof.
  destruct (fetchHtml_total up this url w) as (w' & r & _ & H & _).
  exists w', r.
  apply fetch_loop_requests in H as H'; [|lia].
  destruct H' as (more & ? & ?).
  exists more. split; [done|]. split; [done|lia].
Qed.

End HttpClientBounds.

(** When the server stays unavailable the default client makes 4 of the
    24 requests it may make. *)
Example fetchHtml_unavailable :
  fetchHtml always503 (new_AmazonHttpClient []) search_url world0
  = Some ({| requests := replicate 4 search_url;
             sleeps := [1000; 2000; 3000]; clock := 6000 |},
          Throw (Error exhausted)).
Proof. vm_compute. reflexivity. Qed.

(** ** AmazonHtmlParser: the shape of the other fields *)

Lemma replace_non_digits s :
  replace_all (λ c, negb (is_digit c)) [] s = List.filter is_digit s.
Proof.
  induction s as [|c t IH]; [done|]. simpl. rewrite IH.
  by destruct (is_digit c).
Qed.

Lemma filter_all_digits s : forallb is_digit (List.filter is_digit s) = true.
Proof.
  induction s as [|c t IH]; [done|]. simpl.
  destruct (is_digit c) eqn:E; [|done]. simpl. by rewrite E.
Qed.

Lemma digit_not_space c : is_digit c = true → is_space c = false.
Proof.
  unfold is_digit, is_space, in_range.
  rewrite !andb_true_iff, !N.leb_le, !orb_false_iff, !andb_false_iff,
    !N.leb_gt, !N.eqb_neq. lia.
Qed.

Lemma round_half_even_1 a : round_half_even a 1 = a.
Proof.
  unfold round_half_even. rewrite Z.div_1_r, Z.mod_1_r. done.
Qed.

Lemma Qred_inject_Z z : Qred (inject_Z z) = inject_Z z.
Proof. apply Qred_identity. simpl. apply Z.gcd_1_r. Qed.

(** An integer below 2^53 is a double. *)
Lemma to_double_exact z :
  0 ≤ z < 2 ^ 53 → to_double (inject_Z z) = Fin (inject_Z z).
Proof.
  intros [Hz Hlt]. unfold to_double. cbn [Qnum Qden inject_Z].
  destruct (Z.leb_spec z 0) as [|Hpos]; [by replace z with 0 by lia|].
  cbv zeta. change (Z.log2 1) with 0. rewrite Z.sub_0_r.
  pose proof (Z.log2_spec z Hpos) as [Hlo Hhi].
  pose proof (Z.log2_nonneg z) as HL.
  assert (Z.log2 z ≤ 52) as HL52.
  { apply Z.lt_succ_r. apply (Z.pow_lt_mono_r_iff 2); lia. }
  set (L := Z.log2 z) in *.
  rewrite (Z.max_l 0 (- L)), (Z.max_r 0 L) by lia.
  rewrite Z.pow_0_r, !Z.mul_1_r, Z.mul_1_l.
  destruct (Z.ltb_spec z (2 ^ L)); [lia|].
  rewrite (Z.max_l (L - 52) (-1074)) by lia.
  rewrite (Z.max_r 0 (- (L - 52))), (Z.max_l 0 (L - 52)) by lia.
  rewrite Z.pow_0_r, round_half_even_1.
  assert ((0 <=? L - 52) && (2 ^ 1024 <=? z * 2 ^ (- (L - 52)) * 2 ^ (L - 52))
          = false) as ->.
  { destruct (Z.leb_spec 0 (L - 52)); [|done]. simpl.
    replace (L - 52) with 0 by lia. simpl Z.opp. rewrite Z.pow_0_r, !Z.mul_1_r.
    apply Z.leb_gt. assert (2 ^ 53 < 2 ^ 1024) by (apply Z.pow_lt_mono_r; lia).
    lia. }
  f_equal. transitivity (Qred (inject_Z z)); [|apply Qred_inject_Z].
  apply Qred_complete.
  rewrite inject_Z_mult, Zpower_Qpower by lia.
  replace (L - 52) with (- - (L - 52)) at 2 by lia.
  rewrite (Qpower_opp 2 (- (L - 52))).
  change (inject_Z 2) with 2%Q.
  assert (¬ (2 ^ (- (L - 52)) == 0)%Q) as Hne by by apply Qpower_not_0.
  field. done.
Qed.

(** The double nearest to an integer of 54 bits or more is an integer,
    or [Infinity]. *)
Lemma to_double_large z :
  2 ^ 53 ≤ z →
  to_double (inject_Z z) = Infinity false
  ∨ ∃ z', 0 ≤ z' ∧ to_double (inject_Z z) = Fin (inject_Z z').
Proof.
  intros Hz. unfold to_double. cbn [Qnum Qden inject_Z].
  assert (0 < 2 ^ 53) by done.
  destruct (Z.leb_spec z 0) as [|Hpos]; [lia|].
  cbv zeta. change (Z.log2 1) with 0. rewrite Z.sub_0_r.
  pose proof (Z.log2_spec z Hpos) as [Hlo Hhi].
  assert (53 ≤ Z.log2 z) as HL by (by apply Z.log2_le_pow2).
  set (L := Z.log2 z) in *.
  rewrite (Z.max_l 0 (- L)), (Z.max_r 0 L) by lia.
  rewrite Z.pow_0_r, !Z.mul_1_r, Z.mul_1_l.
  destruct (Z.ltb_spec z (2 ^ L)); [lia|].
  rewrite (Z.max_l (L - 52) (-1074)) by lia.
  rewrite (Z.max_l 0 (- (L - 52))), (Z.max_r 0 (L - 52)) by lia.
  rewrite Z.pow_0_r, Z.mul_1_r, Z.mul_1_l.
  set (m := round_half_even _ _).
  destruct ((0 <=? L - 52) && _); [by left|]. right.
  exists (m * 2 ^ (L - 52)). split.
  - apply Z.mul_nonneg_nonneg; [|apply Z.pow_nonneg; lia].
    apply round_half_even_nonneg; [lia|]. apply Z.pow_pos_nonneg; lia.
  - f_equal. transitivity (Qred (inject_Z (m * 2 ^ (L - 52))));
      [|apply Qred_inject_Z].
    apply Qred_complete.
    by rewrite inject_Z_mult, Zpower_Qpower by lia.
Qed.

(** The double nearest to a natural number is [Infinity] or a natural
    number. *)
Lemma to_double_integer z :
  0 ≤ z →
  to_double (inject_Z z) = Infinity false
  ∨ ∃ z', 0 ≤ z' ∧ to_double (inject_Z z) = Fin (inject_Z z').
Proof.
  intros Hz. destruct (Z.lt_ge_cases z (2 ^ 53)).
  - right. exists z. split; [done|]. by apply to_double_exact.
  - by apply to_double_large.
Qed.

(** [parseInt] of a non-empty run of digits is the double nearest to the
    number they spell. *)
Lemma parseInt10_digits ds :
  ds ≠ [] → forallb is_digit ds = true →
  parseInt10 ds = to_double (inject_Z (digits_val 0 ds)).
Proof.
  destruct ds as [|c t]; [done|]. intros _ Hall. unfold parseInt10.
  pose proof Hall as Hc. simpl in Hc. apply andb_true_iff in Hc as [Hc _].
  cbn [trimStart]. rewrite (digit_not_space c Hc). unfold read_sign.
  assert (48 ≤ c ≤ 57)%N as Hr.
  { unfold is_digit, in_range in Hc.
    by apply andb_true_iff in Hc as [?%N.leb_le ?%N.leb_le]. }
  destruct (N.eqb_spec c 45); [lia|]. destruct (N.eqb_spec c 43); [lia|].
  rewrite (proj2 (take_while_id is_digit (c :: t)) Hall). done.
Qed.

(** Above 2^53 the count is rounded, to even on a tie, and 309 digits
    are beyond every double. *)
Example parseInt10_nearest :
  parseInt10 (js "9007199254740993") = Fin 9007199254740992
  ∧ parseInt10 (js "9007199254740995") = Fin 9007199254740996
  ∧ parseInt10 (replicate 309 57%N) = Infinity false.
Proof. repeat split; vm_compute; reflexivity. Qed.

Lemma or_null_some s : s ≠ [] → or_null (Some s) = Some s.
Proof. by destruct s. Qed.

Lemma opt_member_some {A B} (a : A) (f : A → B) :
  opt_member (Some a) f = Some (f a).
Proof. done. Qed.

Section ParserShapes.

Variable resolve : jsstring → jsstring.

(** X12: the review count is [null], [Infinity] or an integer that is
    not negative.  When the element is there and its text has a digit, it
    is the double nearest to the number the digits of the text spell,
    whatever stands between them: that number itself when it is below
    2^53. *)
Theorem getReviews_count (item : Element) :
  (∃ n, getReviews item = Normal n
        ∧ (n = None ∨ n = Some (Infinity false)
           ∨ ∃ z, 0 ≤ z ∧ n = Some (Fin (inject_Z z))))
  ∧ (∀ el, querySelector sel_reviews item = Some el →
       List.filter is_digit (textContent el) ≠ [] →
       let count := digits_val 0 (List.filter is_digit (textContent el)) in
       getReviews item = Normal (Some (to_double (inject_Z count)))
       ∧ (count < 2 ^ 53 →
          getReviews item = Normal (Some (Fin (inject_Z count))))).
Proof.
  assert (∀ el, querySelector sel_reviews item = Some el →
       List.filter is_digit (textContent el) ≠ [] →
       getReviews item
       = Normal (Some (to_double
                         (inject_Z
                            (digits_val 0
                               (List.filter is_digit (textContent el)))))))
    as Hfound.
  { intros el Hel Hds. unfold getReviews.
    rewrite Hel, !opt_member_some, replace_non_digits, or_null_some by done.
    by rewrite parseInt10_digits by (done || apply filter_all_digits). }
  split.
  - destruct (querySelector sel_reviews item) as [el|] eqn:Hel.
    + destruct (List.filter is_digit (textContent el)) as [|d ds] eqn:E.
      * exists None. split; [|by left]. unfold getReviews. rewrite Hel.
        simpl. by rewrite replace_non_digits, E.
      * eexists. split; [apply (Hfound el eq_refl); by rewrite E|].
        right.
        destruct (to_double_integer
                    (digits_val 0 (List.filter is_digit (textContent el))))
          as [->|(z & Hz & ->)]; [|by left|right; by exists z].
        apply digits_val_nonneg; [done|]. apply filter_all_digits.
    + exists None. split; [|by left]. unfold getReviews. by rewrite Hel.
  - intros el Hel Hds count. split; [by apply Hfound|].
    intros Hlt. rewrite (Hfound el Hel Hds). do 2 f_equal.
    apply to_double_exact. split; [|done].
    apply digits_val_nonneg; [done|]. apply filter_all_digits.
Qed.

(** X13: a title that is not [null] is the trimmed text of the
    element found: not empty, with no white space at either end.  An image
    that is not [null] is the non-empty [src] of the element found. *)
Theorem present_strings_not_empty (item : Element) :
  (∀ t, getTitle item = Normal (Some t) →
     t ≠ []
     ∧ (∀ c, head t = Some c → is_space c = false)
     ∧ (∀ c, last t = Some c → is_space c = false)
     ∧ ∃ el, querySelector sel_title item = Some el
             ∧ t = trim (textContent el))
  ∧ (∀ i, getImage resolve item = Normal (Some i) →
       i ≠ []
       ∧ ∃ el, querySelector sel_image item = Some el ∧ i = src resolve el).
Proof.
  split.
  - intros t. unfold getTitle.
    destruct (querySelector sel_title item) as [el|]; [|done]. simpl.
    destruct (trim (textContent el)) as [|c u] eqn:E; [done|].
    intros [= <-]. split; [done|]. rewrite <- E.
    destruct (trim_spec (textContent el)) as (_ & _ & _ & _ & _ & Hh & Hl).
    split; [done|]. split; [done|]. by exists el.
  - intros i. unfold getImage.
    destruct (querySelector sel_image item) as [el|]; [|done]. simpl.
    destruct (src resolve el) as [|c u] eqn:E; [done|].
    intros [= <-]. split; [done|]. exists el. by rewrite E.
Qed.

End ParserShapes.

Lemma getReviews_count_witness :
  getReviews (element_of full_item) = Normal (Some (Fin 1234)).
Proof.
  eapply eq_trans;
    [refine (proj2 (proj2 (getReviews_count (element_of full_item)) _ _ _) _)
    |].
  - vm_compute. reflexivity.
  - vm_compute. discriminate.
  - vm_compute. reflexivity.
  - vm_compute. reflexivity.
Defined.

Lemma present_strings_not_empty_witness :
  js "USB Charger" ≠ [] ∧ js "https://m.example/i.jpg" ≠ [].
Proof.
  destruct (present_strings_not_empty id (element_of full_item)) as [Ht Hi].
  split.
  - apply (Ht (js "USB Charger")). vm_compute. reflexivity.
  - apply (Hi (js "https://m.example/i.jpg")). vm_compute. reflexivity.
Defined.

(** ** AmazonScraperService: every way a call can end *)

Lemma validate_throws raw e :
  KeywordValidator.validate raw = Throw e → ∃ m, e = ValidationError m.
Proof.
  destruct raw as [s|]; [|intros [= <-]; eauto]. rewrite validate_cases.
  destruct (decide (s = [])); [intros [= <-]; eauto|].
  destruct (MAX_KEYWORD_LENGTH <? length s)%nat; [intros [= <-]; eauto|].
  destruct (forallb allowed s); [done|intros [= <-]; eauto].
Qed.

Lemma validate_allowed raw k :
  KeywordValidator.validate raw = Normal k →
  forallb allowed k = true ∧ (length k ≤ MAX_KEYWORD_LENGTH)%nat
  ∧ (∀ c, head k = Some c → is_space c = false)
  ∧ (∀ c, last k = Some c → is_space c = false).
Proof.
  destruct raw as [s|]; [|done]. rewrite validate_cases.
  destruct (decide (s = [])); [done|].
  destruct (Nat.ltb_spec MAX_KEYWORD_LENGTH (length s)); [done|].
  destruct (forallb allowed s) eqn:F; [|done]. intros [= <-].
  destruct (trim_spec s) as (_ & _ & _ & _ & _ & Hh & Hl).
  split; [by apply trim_forallb|].
  split; [pose proof (trim_length s); lia|done].
Qed.

Section ServiceOutcomes.

Variable up : Upstream.
Variable httpClient : AmazonHttpClient.
Variable JSDOM : jsstring → list Node.
Variable resolve : jsstring → jsstring.

Lemma parse_normal html :
  ∃ records, parse JSDOM resolve html = Normal records
             ∧ (length records ≤ 20)%nat.
Proof.
  unfold parse.
  destruct (mapM_record_of resolve
              (take 20 (querySelectorAll sel_result (JSDOM (or_empty html)))))
    as (records & -> & Hall & _).
  exists records. split; [done|]. apply Forall2_length in Hall.
  rewrite length_take in Hall. lia.
Qed.

(** The three ways a call of [scrape] ends: the keyword is refused; the
    cache has a live entry; or the cache has none, the page is fetched,
    and the fetch either fails or is parsed and stored. *)
Lemma scrape_inv raw st st' res :
  scrape up httpClient JSDOM resolve raw st = Some (st', res) →
  (∃ m, KeywordValidator.validate raw = Throw (ValidationError m)
        ∧ st' = st ∧ res = Throw (ValidationError m))
  ∨ (∃ k e, KeywordValidator.validate raw = Normal k
        ∧ Cache.store (cache st) !! k = Some e
        ∧ clock (world st) ≤ Cache.expiry e
        ∧ st' = log (js "[CACHE HIT] Keyword: " ++ k) st
        ∧ res = Normal (Cache.value e))
  ∨ (∃ k url w fr,
        KeywordValidator.validate raw = Normal k
        ∧ snd (Cache.get k (clock (world st)) (cache st)) = None
        ∧ AmazonUrlBuilder.build k = Normal url
        ∧ fetchHtml up httpClient url (world st) = Some (w, fr)
        ∧ fetches st' = S (fetches st)
        ∧ world st' = w
        ∧ console st'
          = console st ++ [js "[CACHE MISS] Fetching keyword: " ++ k]
        ∧ match fr with
          | Throw e =>
              (∃ m, e = Error m) ∧ res = Throw e
              ∧ heap st' = heap st
              ∧ cache st' = fst (Cache.get k (clock (world st)) (cache st))
          | Normal html =>
              ∃ records,
                parse JSDOM resolve html = Normal records
                ∧ (length records ≤ 20)%nat
                ∧ res = Normal (length (heap st))
                ∧ heap st' = heap st ++ [records]
                ∧ cache st'
                  = Cache.set k (length (heap st)) (clock w)
                      (fst (Cache.get k (clock (world st)) (cache st)))
          end).
Proof.
  unfold scrape.
  destruct (KeywordValidator.validate raw) as [k|e] eqn:Hv.
  2:{ intros [= <- <-]. left. apply validate_throws in Hv as Hm.
      destruct Hm as [m ->]. by exists m. }
  destruct (Cache.get k (clock (world st)) (cache st)) as [c cached] eqn:G.
  destruct cached as [r|].
  { intros [= <- <-]. right; left. unfold Cache.get in G.
    destruct (Cache.store (cache st) !! k) as [e|] eqn:E; [|done].
    destruct (Z.ltb_spec (Cache.expiry e) (clock (world st))); [done|].
    injection G as <- <-. exists k, e. by repeat split. }
  destruct (validated_builds _ _ Hv) as (q & Hb & _ & _). rewrite Hb.
  destruct (fetchHtml _ _ _ _) as [[w fr]|] eqn:F; [|done].
  intros H. right; right. exists k, (search_prefix ++ q), w, fr.
  rewrite G. do 3 (split; [done|]). split; [exact F|].
  destruct fr as [html|e].
  - destruct (parse_normal html) as (records & Hp & Hlen).
    rewrite Hp in H. simpl in H. injection H as <- <-. simpl.
    do 3 (split; [done|]). by exists records.
  - injection H as <- <-. simpl. do 3 (split; [done|]).
    split; [|done].
    destruct (fetch_loop_outcome up httpClient _ _ _ _ _ _
                (Nat.le_0_l _) F) as [[? ?]|[m [= ->]]]; [done|by exists m].
Qed.

(** [scrape] returns or throws whatever the state: the loop never runs out
    of fuel. *)
Lemma scrape_total raw st :
  ∃ st' res, scrape up httpClient JSDOM resolve raw st = Some (st', res).
Proof.
  unfold scrape.
  destruct (KeywordValidator.validate raw) as [k|e] eqn:Hv; [|eauto].
  destruct (Cache.get k (clock (world st)) (cache st)) as [c [r|]];
    [eauto|].
  destruct (validated_builds _ _ Hv) as (q & -> & _ & _).
  destruct (fetchHtml_total up httpClient (search_prefix ++ q)
              (world (log (js "[CACHE MISS] Fetching keyword: " ++ k)
                        (with_cache c st))))
    as (w & fr & _ & -> & _).
  destruct fr as [html|e]; [|eauto].
  destruct (parse_normal html) as (records & -> & _). simpl. eauto.
Qed.

End ServiceOutcomes.

Lemma invalid_throws raw :
  invalid raw → ∃ m, KeywordValidator.validate raw = Throw (ValidationError m).
Proof.
  destruct raw as [s|]; [|simpl; eauto]. rewrite validate_cases. simpl.
  destruct (decide (s = [])); [eauto|].
  destruct (Nat.ltb_spec MAX_KEYWORD_LENGTH (length s)); [eauto|].
  intros [?|[?|Hc]]; [done|lia|]. apply forallb_false in Hc. rewrite Hc. eauto.
Qed.

Lemma validate_returns_trim s k :
  KeywordValidator.validate (Some s) = Normal k → k = trim s ∧ s ≠ [].
Proof.
  rewrite validate_cases. destruct (decide (s = [])); [done|].
  destruct (MAX_KEYWORD_LENGTH <? length s)%nat; [done|].
  destruct (forallb allowed s); [|done]. by intros [= <-].
Qed.

Lemma Cache_get_subset {V} (key other : jsstring) (now : Z) (c : Cache.t V) e :
  Cache.store (fst (Cache.get key now c)) !! other = Some e →
  Cache.store c !! other = Some e.
Proof.
  unfold Cache.get. destruct (Cache.store c !! key) as [e'|]; [|done].
  destruct (Cache.expiry e' <? now); [|done]. simpl.
  by intros [_ ?]%lookup_delete_Some.
Qed.

Lemma Cache_get_null {V} (key : jsstring) (now : Z) (c : Cache.t V) :
  snd (Cache.get key now c) = None →
  Cache.store (fst (Cache.get key now c)) !! key = None.
Proof.
  unfold Cache.get. destruct (Cache.store c !! key) as [e|] eqn:E; [|done].
  destruct (Cache.expiry e <? now); [|done]. intros _. simpl.
  apply lookup_delete_eq.
Qed.

Lemma Cache_get_dead {V} (key : jsstring) (now : Z) (c : Cache.t V) :
  (∀ e, Cache.store c !! key = Some e → Cache.expiry e < now) →
  snd (Cache.get key now c) = None.
Proof.
  intros H. unfold Cache.get.
  destruct (Cache.store c !! key) as [e|]; [|done].
  by destruct (Z.ltb_spec (Cache.expiry e) now); [|specialize (H e eq_refl); lia].
Qed.

Section ServiceProperties.

Variable up : Upstream.
Variable httpClient : AmazonHttpClient.
Variable JSDOM : jsstring → list Node.
Variable resolve : jsstring → jsstring.

(** A call that finds no live entry fetches, whatever comes of it, and a
    result it returns is a new array. *)
Lemma scrape_dead_fetches raw k st :
  KeywordValidator.validate raw = Normal k →
  (∀ e, Cache.store (cache st) !! k = Some e →
        Cache.expiry e < clock (world st)) →
  ∃ st' res, scrape up httpClient JSDOM resolve raw st = Some (st', res)
    ∧ fetches st' = S (fetches st)
    ∧ (length (requests (world st)) < length (requests (world st')))%nat
    ∧ match res with
      | Normal r => r = length (heap st)
      | Throw e => ∃ m, e = Error m
      end.
Proof.
  intros Hv Hdead.
  destruct (scrape_total up httpClient JSDOM resolve raw st)
    as (st' & res & Hrun).
  exists st', res. split; [done|].
  apply scrape_inv in Hrun
    as [(m & Hv' & _)|[(k' & e & Hv' & He & Hle & _)
                      |(k' & url & w & fr & Hv' & _ & _ & Hf & Hfe & Hw & _ & Hfr)]].
  - congruence.
  - rewrite Hv in Hv'. injection Hv' as <-. specialize (Hdead e He). lia.
  - split; [done|]. split.
    + rewrite Hw. unfold fetchHtml in Hf.
      apply fetch_loop_requests in Hf as (more & -> & _); [|lia].
      rewrite length_app. simpl. lia.
    + destruct fr as [html|e].
      * by destruct Hfr as (records & _ & _ & -> & _).
      * by destruct Hfr as (Hm & -> & _).
Qed.

(** X14: [scrape] always returns or throws, and makes at most one
    fetch.  What it throws is a [ValidationError], with the state left as
    it was, or the [Error] of the one fetch it made; never a [URIError]. *)
Theorem scrape_completes (raw : option jsstring) (st : State) :
  ∃ st' res, scrape up httpClient JSDOM resolve raw st = Some (st', res)
    ∧ match res with
      | Normal _ => fetches st' = fetches st ∨ fetches st' = S (fetches st)
      | Throw (ValidationError _) => st' = st
      | Throw (Error _) => fetches st' = S (fetches st)
      | Throw URIError => False
      end.
Proof.
  destruct (scrape_total up httpClient JSDOM resolve raw st)
    as (st' & res & Hrun).
  exists st', res. split; [done|].
  apply scrape_inv in Hrun
    as [(m & _ & -> & ->)|[(k' & e & _ & _ & _ & -> & ->)
                      |(k' & url & w & fr & _ & _ & _ & _ & Hfe & _ & _ & Hfr)]].
  - done.
  - by left.
  - destruct fr as [html|e].
    + destruct Hfr as (records & _ & _ & -> & _). by right.
    + by destruct Hfr as ((m & ->) & -> & _).
Qed.

(** X15: when [scrape] throws for a valid keyword, the error is the
    fetch's [Error], no array was allocated and the cache holds no entry
    for the keyword, so the next call with it fetches again, whenever it
    comes. *)
Theorem scrape_failure_stores_nothing (raw : option jsstring)
    (k : jsstring) (st st1 : State) (e : exception) :
  KeywordValidator.validate raw = Normal k →
  scrape up httpClient JSDOM resolve raw st = Some (st1, Throw e) →
  (∃ m, e = Error m)
  ∧ fetches st1 = S (fetches st)
  ∧ heap st1 = heap st
  ∧ Cache.store (cache st1) !! k = None
  ∧ ∀ t, ∃ st2 res,
      scrape up httpClient JSDOM resolve raw (at_time t st1)
      = Some (st2, res)
      ∧ fetches st2 = S (fetches st1).
Proof.
  intros Hv Hrun.
  apply scrape_inv in Hrun
    as [(m & Hv' & _)|[(k' & e' & _ & _ & _ & _ & ?)
      |(k' & url & w & fr & Hv' & Hnull & _ & _ & Hfe & _ & _ & Hfr)]];
    [congruence|done|].
  rewrite Hv in Hv'. injection Hv' as <-.
  destruct fr as [html|e0]; [by destruct Hfr as (? & _ & _ & ? & _)|].
  destruct Hfr as (Hm & [= <-] & Hheap & Hcache).
  assert (Cache.store (cache st1) !! k = None) as Hnone
    by (rewrite Hcache; by apply Cache_get_null).
  do 4 (split; [done|]). intros t.
  destruct (scrape_dead_fetches raw k (at_time t st1) Hv)
    as (st2 & res & ? & ? & _); [|by exists st2, res].
  simpl. intros e1 He1. congruence.
Qed.

(** X16: once the TTL has passed since a result was stored, the next
    [scrape] for the keyword fetches again, and what it returns is a new
    array, not the cached one. *)
Theorem scrape_after_ttl (raw : option jsstring) (k : jsstring)
    (st st1 : State) (r : ref) (t : Z) :
  KeywordValidator.validate raw = Normal k →
  snd (Cache.get k (clock (world st)) (cache st)) = None →
  scrape up httpClient JSDOM resolve raw st = Some (st1, Normal r) →
  clock (world st1) + Cache.ttlMs (cache st1) < t →
  ∃ st2 res,
    scrape up httpClient JSDOM resolve raw (at_time t st1) = Some (st2, res)
    ∧ fetches st2 = S (fetches st1)
    ∧ (length (requests (world st1)) < length (requests (world st2)))%nat
    ∧ match res with
      | Normal r2 => r2 = S r
      | Throw e => ∃ m, e = Error m
      end.
Proof.
  intros Hv Hmiss Hrun Ht.
  destruct (scrape_miss _ _ _ _ _ _ _ _ _ Hv Hmiss Hrun)
    as (records & _ & -> & Hh & Httl & Hstore).
  rewrite Httl in Ht.
  destruct (scrape_dead_fetches raw k (at_time t st1) Hv)
    as (st2 & res & H2 & Hf & Hreq & Hres).
  { simpl. intros e He. rewrite Hstore in He. injection He as <-.
    simpl. lia. }
  exists st2, res. do 3 (split; [done|]).
  destruct res as [r2|]; [|done]. simpl in Hres.
  rewrite Hres, Hh, length_app. simpl. lia.
Qed.

(** X17: the cache is keyed by the validated keyword: two inputs that
    [validate] maps to the same keyword share one entry, so the second is
    served from the cache within the TTL. *)
Theorem scrape_shares_entry (raw1 raw2 : option jsstring) (k : jsstring)
    (st st1 : State) (r : ref) (t : Z) :
  KeywordValidator.validate raw1 = Normal k →
  KeywordValidator.validate raw2 = Normal k →
  snd (Cache.get k (clock (world st)) (cache st)) = None →
  scrape up httpClient JSDOM resolve raw1 st = Some (st1, Normal r) →
  t ≤ clock (world st1) + Cache.ttlMs (cache st1) →
  scrape up httpClient JSDOM resolve raw2 (at_time t st1)
  = Some (log (js "[CACHE HIT] Keyword: " ++ k) (at_time t st1), Normal r).
Proof.
  intros Hv1 Hv2 Hmiss Hrun Ht.
  destruct (scrape_miss _ _ _ _ _ _ _ _ _ Hv1 Hmiss Hrun)
    as (records & _ & -> & _ & Httl & Hstore).
  rewrite Httl in Ht.
  by apply (scrape_hit up httpClient JSDOM resolve raw2 k (at_time t st1) _
              Hv2 Hstore).
Qed.

(** The invariant of the service state is kept by every call, the heap
    only grows, and a result returned is an allocated array of at most 20
    records. *)
Lemma scrape_keeps_well_formed raw st st' res :
  well_formed st →
  scrape up httpClient JSDOM resolve raw st = Some (st', res) →
  well_formed st'
  ∧ heap st `prefix_of` heap st'
  ∧ match res with
    | Normal r =>
        ∃ records, heap st' !! r = Some records
                   ∧ (length records ≤ 20)%nat
    | Throw _ => True
    end.
Proof.
  intros [Hc Hh] Hrun.
  apply scrape_inv in Hrun
    as [(m & _ & -> & ->)|[(k & e & Hv & He & _ & -> & ->)
      |(k & url & w & fr & Hv & _ & _ & _ & _ & _ & _ & Hfr)]].
  - done.
  - split; [done|]. split; [done|]. simpl.
    destruct (Hc k e He) as [Hlt _].
    destruct (lookup_lt_is_Some_2 _ _ Hlt) as [records Hr].
    exists records. split; [done|].
    by apply (Forall_lookup_1 _ _ _ _ Hh Hr).
  - destruct fr as [html|e].
    + destruct Hfr as (records & _ & Hlen & -> & Hheap & Hcache).
      split; [split|split].
      * intros k' e'. rewrite Hcache, Hheap, length_app. simpl.
        destruct (decide (k = k')) as [<-|Hne].
        -- rewrite lookup_insert_eq. intros [= <-]. simpl.
           split; [lia|by exists raw].
        -- rewrite lookup_insert_ne by done.
           intros He'%Cache_get_subset.
           destruct (Hc k' e' He') as [? ?]. split; [lia|done].
      * rewrite Hheap. apply Forall_app. split; [done|].
        by apply Forall_singleton.
      * rewrite Hheap. by apply prefix_app_r.
      * exists records. split; [|done]. rewrite Hheap.
        by rewrite lookup_app_r, Nat.sub_diag by done.
    + destruct Hfr as (_ & -> & Hheap & Hcache).
      split; [split|by rewrite Hheap].
      * intros k' e'. rewrite Hcache, Hheap.
        intros He'%Cache_get_subset. by apply Hc.
      * by rewrite Hheap.
Qed.

(** X18: in every state the service can reach, each cache entry refers
    to an allocated array and is keyed by a keyword [validate] returned,
    every allocated array has at most 20 records, and the TTL is the 5
    minutes of [CACHE_TTL_MS]. *)
Theorem reachable_well_formed (st : State) :
  reachable up httpClient JSDOM resolve st →
  well_formed st ∧ Cache.ttlMs (cache st) = CACHE_TTL_MS.
Proof.
  induction 1 as [|t st _ [IH Httl] _|raw st st' res _ [IH Httl] Hrun].
  - split; [|done]. split; [|by apply Forall_nil_2]. intros k e He.
    simpl in He. by rewrite lookup_empty in He.
  - done.
  - split; [by apply (scrape_keeps_well_formed raw st st' res)|].
    apply scrape_inv in Hrun
      as [(m & _ & -> & _)|[(k & e & _ & _ & _ & -> & _)
        |(k & url & w & fr & _ & _ & _ & _ & _ & _ & _ & Hfr)]];
      [done..|].
    destruct fr as [html|e].
    + destruct Hfr as (records & _ & _ & _ & _ & ->). simpl.
      by rewrite Cache_get_ttl.
    + destruct Hfr as (_ & _ & _ & ->). by rewrite Cache_get_ttl.
Qed.

(** X19: an array [scrape] has allocated is never changed by a later
    call. *)
Theorem scrape_never_rewrites_results (raw : option jsstring)
    (st st' : State) (res : completion ref) (r : ref)
    (records : list ProductRecord) :
  heap st !! r = Some records →
  scrape up httpClient JSDOM resolve raw st = Some (st', res) →
  heap st' !! r = Some records.
Proof.
  intros Hr Hrun.
  apply scrape_inv in Hrun
    as [(m & _ & -> & _)|[(k & e & _ & _ & _ & -> & _)
      |(k & url & w & fr & _ & _ & _ & _ & _ & _ & _ & Hfr)]];
    [done..|].
  destruct fr as [html|e].
  - destruct Hfr as (records' & _ & _ & _ & -> & _).
    by apply lookup_app_l_Some.
  - destruct Hfr as (_ & _ & -> & _). done.
Qed.

End ServiceProperties.

Lemma reachable_well_formed_witness :
  well_formed after_first ∧ Cache.ttlMs (cache after_first) = CACHE_TTL_MS.
Proof.
  apply (reachable_well_formed serving (new_AmazonHttpClient [])
           (λ _, [full_item]) id).
  apply (reach_scrape _ _ _ _ (Some (js "usb charger")) fresh after_first
           (Normal 0%nat)); [apply reach_fresh|].
  vm_compute. reflexivity.
Defined.

Lemma scrape_never_rewrites_results_witness :
  ∃ records,
    heap (log (js "[CACHE HIT] Keyword: usb charger") after_first) !! 0%nat
    = Some records.
Proof.
  eexists.
  eapply (scrape_never_rewrites_results serving (new_AmazonHttpClient [])
            (λ _, [full_item]) id (Some (js "usb charger")) after_first
            _ (Normal 0%nat)).
  - vm_compute. reflexivity.
  - vm_compute. reflexivity.
Defined.

Lemma scrape_failure_stores_nothing_witness :
  (∃ m, Error "Failed to fetch HTML: connect ECONNREFUSED" = Error m)
  ∧ fetches after_failure = 1%nat
  ∧ heap after_failure = []
  ∧ Cache.store (cache after_failure) !! js "usb" = None.
Proof.
  destruct (scrape_failure_stores_nothing unreachable
              (new_AmazonHttpClient []) (λ _, [full_item]) id
              (Some (js "usb")) (js "usb") fresh after_failure
              (Error "Failed to fetch HTML: connect ECONNREFUSED"))
    as (Hm & Hf & Hh & Hc & _).
  - reflexivity.
  - vm_compute. reflexivity.
  - done.
Defined.

Lemma scrape_after_ttl_witness :
  ∃ st2 res,
    scrape serving (new_AmazonHttpClient []) (λ _, [full_item]) id
      (Some (js "usb charger")) (at_time 300121 after_first)
    = Some (st2, res)
    ∧ fetches st2 = S (fetches after_first).
Proof.
  destruct (scrape_after_ttl serving (new_AmazonHttpClient [])
              (λ _, [full_item]) id (Some (js "usb charger"))
              (js "usb charger") fresh after_first 0%nat 300121)
    as (st2 & res & H & Hf & _).
  - reflexivity.
  - vm_compute. reflexivity.
  - vm_compute. reflexivity.
  - vm_compute. reflexivity.
  - by exists st2, res.
Defined.

Lemma scrape_shares_entry_witness :
  scrape serving (new_AmazonHttpClient []) (λ _, [full_item]) id
    (Some (js "  usb charger ")) (at_time 1000 after_first)
  = Some (log (js "[CACHE HIT] Keyword: usb charger")
            (at_time 1000 after_first), Normal 0%nat).
Proof.
  apply (scrape_shares_entry serving (new_AmazonHttpClient [])
           (λ _, [full_item]) id (Some (js "usb charger"))
           (Some (js "  usb charger ")) (js "usb charger") fresh).
  - reflexivity.
  - reflexivity.
  - vm_compute. reflexivity.
  - vm_compute. reflexivity.
  - vm_compute. discriminate.
Defined.

(** ** ScrapeRouter and errorHandler *)

Lemma trim_keeps c s : c ∈ s → is_space c = false → c ∈ trim s.
Proof.
  destruct (trim_spec s) as (l & r & Hs & Hl & Hr & _). intros Hc Hsp.
  rewrite Hs in Hc. rewrite forallb_forall in Hl, Hr.
  apply elem_of_app in Hc as [Hc|Hc%elem_of_app].
  - apply list_elem_of_In, Hl in Hc. congruence.
  - destruct Hc as [Hc|Hc]; [done|].
    apply list_elem_of_In, Hr in Hc. congruence.
Qed.

(** The one error [String] throws. *)
Lemma to_String_throws q e :
  to_String q = Throw e → e = Error no_primitive.
Proof.
  revert e. induction q as [|s|[|]|items IH] using QueryValue_nested_ind;
    intros e; simpl; try done.
  - by intros [= <-].
  - destruct (mapM _ items) as [texts|e'] eqn:Hm; simpl; [done|].
    intros [= <-]. revert e' Hm.
    induction IH as [|x t Hx _ IHt]; intros e'; [done|].
    match goal with
    | |- mapM ?f _ = _ → _ =>
        change (mapM f (x :: t))
          with (y ← f x; k ← mapM f t; mret (y :: k));
        destruct (f x) as [y|e0] eqn:E; simpl
    end.
    + destruct (mapM _ t); simpl; [done|]. intros [= <-]. by apply IHt.
    + intros [= <-]. destruct x; try done; by apply Hx.
Qed.

(** The route reads the keyword, or [String] throws its error. *)
Lemma read_keyword_cases query :
  read_keyword query = Normal (keyword_of query)
  ∨ read_keyword query = Throw (Error no_primitive).
Proof.
  unfold keyword_of. destruct (read_keyword query) as [k|e] eqn:E;
    [by left|right].
  unfold read_keyword in E.
  destruct (to_String _) as [text|e'] eqn:Ht; simpl in E; [done|].
  injection E as <-. by apply to_String_throws in Ht as ->.
Qed.

Lemma read_keyword_QString s : read_keyword (QString s) = Normal (trim s).
Proof. by destruct s. Qed.

Lemma keyword_of_QString s : keyword_of (QString s) = trim s.
Proof. unfold keyword_of. by rewrite read_keyword_QString. Qed.

Lemma keyword_of_trimmed query : trim (keyword_of query) = keyword_of query.
Proof.
  unfold keyword_of, read_keyword.
  destruct (to_String _); simpl; [apply trim_trim|done].
Qed.

(** A joined array of two or more items has a comma in it. *)
Lemma join_comma x y l : 44%N ∈ join (js ",") (x :: y :: l).
Proof.
  cbn [join]. apply elem_of_app. right. apply elem_of_app. left.
  by apply list_elem_of_singleton.
Qed.

Lemma to_String_comma x y l text :
  to_String (QArray (x :: y :: l)) = Normal text → 44%N ∈ text.
Proof.
  cbn [to_String].
  match goal with
  | |- context [mapM ?f _] =>
      change (mapM f (x :: y :: l))
        with (a ← f x; k ← (b ← f y; k' ← mapM f l; mret (b :: k'));
              mret (a :: k));
      destruct (f x), (f y), (mapM f l); simpl; try done
  end.
  intros [= <-]. apply join_comma.
Qed.

Section RouterProperties.

Variable up : Upstream.
Variable httpClient : AmazonHttpClient.
Variable JSDOM : jsstring → list Node.
Variable resolve : jsstring → jsstring.

(** A refused keyword is answered with 400 and its message, and nothing
    changes. *)
Lemma handleScrape_refused query srv :
  read_keyword query = Normal (keyword_of query) →
  invalid (Some (keyword_of query)) →
  ∃ m, KeywordValidator.validate (Some (keyword_of query))
       = Throw (ValidationError m)
    ∧ handleScrape up httpClient JSDOM resolve query srv
      = Some (srv, {| code := 400; body := ErrorBody m |}).
Proof.
  intros Hread (m & Hm)%invalid_throws. exists m. split; [done|].
  unfold handleScrape, scrape. rewrite Hread, Hm. simpl. by destruct srv.
Qed.

(** What [String] throws is answered 503, and the service is not
    called. *)
Lemma handleScrape_no_primitive query srv :
  read_keyword query = Throw (Error no_primitive) →
  handleScrape up httpClient JSDOM resolve query srv
  = Some ({| service := service srv;
             stderr := stderr srv ++ [Error no_primitive] |},
          {| code := 503; body := ErrorBody "Internal server error" |}).
Proof. intros Hread. unfold handleScrape. by rewrite Hread. Qed.

(** X20: the route always answers, with one of three responses: 200
    with the trimmed keyword, the results and their count; 400 with the
    validator's message, the server unchanged; or 503 with the fixed text
    "Internal server error", the [Error] going to [console.error] only. *)
Theorem handleScrape_responds (query : QueryValue) (srv : Server) :
  ∃ srv' resp,
    handleScrape up httpClient JSDOM resolve query srv = Some (srv', resp)
    ∧ ((code resp = 200
        ∧ stderr srv' = stderr srv
        ∧ ∃ rs, body resp = Results (keyword_of query) (length rs) rs)
       ∨ (code resp = 400 ∧ srv' = srv
          ∧ ∃ m, body resp = ErrorBody m
                 ∧ KeywordValidator.validate (Some (keyword_of query))
                   = Throw (ValidationError m))
       ∨ (code resp = 503
          ∧ body resp = ErrorBody "Internal server error"
          ∧ ∃ m, stderr srv' = stderr srv ++ [Error m])).
Proof.
  destruct (read_keyword_cases query) as [Hread|Hread].
  2:{ eexists _, _. split; [by apply handleScrape_no_primitive|].
      right; right. simpl. split; [done|]. split; [done|]. by eexists. }
  unfold handleScrape. rewrite Hread.
  destruct (scrape_total up httpClient JSDOM resolve
              (Some (keyword_of query)) (service srv))
    as (st' & res & Hrun).
  rewrite Hrun.
  apply scrape_inv in Hrun
    as [(m & Hv & -> & ->)|[(k & e & _ & _ & _ & -> & ->)
      |(k & url & w & fr & _ & _ & _ & _ & _ & _ & _ & Hfr)]].
  - eexists _, _. split; [done|]. right; left. simpl.
    split; [done|]. split; [by destruct srv|]. by exists m.
  - eexists _, _. split; [done|]. left. simpl.
    split; [done|]. split; [done|]. by eexists.
  - destruct fr as [html|e].
    + destruct Hfr as (records & _ & _ & -> & _).
      eexists _, _. split; [done|]. left. simpl.
      split; [done|]. split; [done|]. by eexists.
    + destruct Hfr as ((m & ->) & -> & _).
      eexists _, _. split; [done|]. right; right. simpl.
      split; [done|]. split; [done|]. by exists m.
Qed.

(** X21: a 200 response carries a keyword of 1 to 50 allowed
    characters with no white space at either end, and at most 20 results,
    counted rightly; the state stays well-formed. *)
Theorem handleScrape_ok (query : QueryValue) (srv srv' : Server)
    (resp : HttpResponse) :
  well_formed (service srv) →
  handleScrape up httpClient JSDOM resolve query srv = Some (srv', resp) →
  code resp = 200 →
  ∃ k rs,
    body resp = Results k (length rs) rs
    ∧ k = keyword_of query
    ∧ (1 ≤ length k ≤ MAX_KEYWORD_LENGTH)%nat
    ∧ forallb allowed k = true
    ∧ (∀ c, head k = Some c → is_space c = false)
    ∧ (∀ c, last k = Some c → is_space c = false)
    ∧ (length rs ≤ 20)%nat
    ∧ well_formed (service srv').
Proof.
  intros Hwf.
  destruct (read_keyword_cases query) as [Hread|Hread].
  2:{ rewrite handleScrape_no_primitive by done.
      intros [= <- <-]. simpl. lia. }
  unfold handleScrape. rewrite Hread.
  destruct (scrape up httpClient JSDOM resolve (Some (keyword_of query))
              (service srv)) as [[st' res]|] eqn:Hrun; [|done].
  destruct (scrape_keeps_well_formed _ _ _ _ _ _ _ _ Hwf Hrun)
    as (Hwf' & _ & Hres).
  destruct res as [r|e].
  2:{ destruct e; intros [= <- <-]; simpl; lia. }
  intros [= <- <-] _. destruct Hres as (records & Hr & Hlen).
  simpl. rewrite Hr. simpl. exists (keyword_of query), records.
  split; [done|]. split; [done|].
  assert (∃ k, KeywordValidator.validate (Some (keyword_of query)) = Normal k)
    as [k Hv].
  { apply scrape_inv in Hrun
      as [(m & _ & _ & ?)|[(k & e & Hv & _)|(k & url & w & fr & Hv & _)]];
      [done|by exists k..]. }
  destruct (validate_returns_trim _ _ Hv) as [Hk Hne].
  rewrite keyword_of_trimmed in Hk. subst k.
  destruct (validate_allowed _ _ Hv) as (Hall & Hmax & Hh & Hl).
  split; [|done].
  split; [|done]. destruct (keyword_of query); [done|simpl; lia].
Qed.

(** X22: a missing [keyword] parameter, or one of white space only,
    is answered 400 "Keyword is required", and nothing changes. *)
Theorem handleScrape_blank (query : QueryValue) (srv : Server) :
  query = QUndefined
  ∨ (∃ s, query = QString s ∧ forallb is_space s = true) →
  handleScrape up httpClient JSDOM resolve query srv
  = Some (srv, {| code := 400; body := ErrorBody "Keyword is required" |}).
Proof.
  intros H.
  assert (read_keyword query = Normal []) as Hk.
  { destruct H as [->|(s & -> & Hs)]; [done|].
    rewrite read_keyword_QString. f_equal. by apply trim_nil. }
  unfold handleScrape, scrape. rewrite Hk. simpl. by destruct srv.
Qed.

(** X23: the route trims before it validates: a query string whose
    trimmed form is a valid keyword is never answered 400, however much
    white space surrounds it. *)
Theorem handleScrape_trims_first (s : jsstring) (srv : Server) :
  trim s ≠ [] →
  (length (trim s) ≤ MAX_KEYWORD_LENGTH)%nat →
  forallb allowed (trim s) = true →
  KeywordValidator.validate (Some (keyword_of (QString s))) = Normal (trim s)
  ∧ ∃ srv' resp,
      handleScrape up httpClient JSDOM resolve (QString s) srv
      = Some (srv', resp)
      ∧ (code resp = 200 ∨ code resp = 503).
Proof.
  intros Hne Hlen Hall.
  assert (KeywordValidator.validate (Some (keyword_of (QString s)))
          = Normal (trim s)) as Hv.
  { rewrite keyword_of_QString, validate_cases, decide_False, Hall by done.
    destruct (Nat.ltb_spec MAX_KEYWORD_LENGTH (length (trim s))); [lia|].
    by rewrite trim_trim. }
  split; [done|]. unfold handleScrape.
  rewrite read_keyword_QString, <- keyword_of_QString.
  destruct (scrape_total up httpClient JSDOM resolve
              (Some (keyword_of (QString s))) (service srv))
    as (st' & res & Hrun).
  rewrite Hrun.
  apply scrape_inv in Hrun
    as [(m & Hv' & _)|[(k & e & _ & _ & _ & _ & ->)
      |(k & url & w & fr & _ & _ & _ & _ & _ & _ & _ & Hfr)]].
  - congruence.
  - eexists _, _. split; [done|]. by left.
  - destruct fr as [html|e].
    + destruct Hfr as (records & _ & _ & -> & _).
      eexists _, _. split; [done|]. by left.
    + destruct Hfr as ((m & ->) & -> & _).
      eexists _, _. split; [done|]. by right.
Qed.

(** X24: a [keyword] parameter that is an array of two or more items
    is never searched for.  When [String] of the array returns, the answer
    is 400 and nothing changes; when it throws, the answer is 503, what
    was thrown goes to [console.error], and the service is as it was. *)
Theorem handleScrape_structured_query (x y : QueryValue)
    (l : list QueryValue) (srv : Server) :
  let query := QArray (x :: y :: l) in
  match to_String query with
  | Normal _ =>
      ∃ m, handleScrape up httpClient JSDOM resolve query srv
           = Some (srv, {| code := 400; body := ErrorBody m |})
  | Throw err =>
      handleScrape up httpClient JSDOM resolve query srv
      = Some ({| service := service srv; stderr := stderr srv ++ [err] |},
              {| code := 503; body := ErrorBody "Internal server error" |})
  end.
Proof.
  intros query. destruct (to_String query) as [text|err] eqn:Ht.
  - assert (read_keyword query = Normal (trim text)) as Hread
      by (unfold read_keyword; cbn [query_truthy query]; by rewrite Ht).
    assert (keyword_of query = trim text) as Hk
      by (unfold keyword_of; by rewrite Hread).
    destruct (handleScrape_refused query srv) as (m & _ & Hm);
      [by rewrite Hk| |by exists m].
    simpl. right. right. exists 44%N. split; [|done].
    rewrite Hk. apply trim_keeps; [|done]. by apply to_String_comma in Ht.
  - pose proof (to_String_throws _ _ Ht) as ->.
    apply handleScrape_no_primitive.
    unfold read_keyword. cbn [query_truthy query]. by rewrite Ht.
Qed.

End RouterProperties.

Lemma handleScrape_ok_witness :
  ∃ k rs,
    body (snd first_exchange) = Results k (length rs) rs
    ∧ k = js "usb charger"
    ∧ (length rs ≤ 20)%nat.
Proof.
  destruct (handleScrape_ok serving (new_AmazonHttpClient [])
              (λ _, [full_item]) id (QString (js " usb charger "))
              fresh_server (fst first_exchange) (snd first_exchange))
    as (k & rs & Hb & Hk & _ & _ & _ & _ & Hlen & _).
  - split; [|by apply Forall_nil_2]. intros k e He. simpl in He.
    by rewrite lookup_empty in He.
  - vm_compute. reflexivity.
  - vm_compute. reflexivity.
  - exists k, rs. split; [done|]. split; [|done]. rewrite Hk. reflexivity.
Defined.

Lemma handleScrape_blank_witness :
  handleScrape serving (new_AmazonHttpClient []) (λ _, [full_item]) id
    (QString (js "   ")) fresh_server
  = Some (fresh_server,
          {| code := 400; body := ErrorBody "Keyword is required" |}).
Proof.
  apply handleScrape_blank. right. exists (js "   "). split; reflexivity.
Defined.

Lemma handleScrape_trims_first_witness :
  (MAX_KEYWORD_LENGTH < length padded)%nat
  ∧ ∃ srv' resp,
      handleScrape serving (new_AmazonHttpClient []) (λ _, [full_item]) id
        (QString padded) fresh_server = Some (srv', resp)
      ∧ (code resp = 200 ∨ code resp = 503).
Proof.
  split; [vm_compute; lia|].
  apply (handleScrape_trims_first serving (new_AmazonHttpClient [])
           (λ _, [full_item]) id padded fresh_server).
  - vm_compute. discriminate.
  - vm_compute. lia.
  - reflexivity.
Defined.

(** [?keyword=usb&keyword=hdmi] *)
Example handleScrape_two_keywords :
  handleScrape serving (new_AmazonHttpClient []) (λ _, [full_item]) id
    (QArray [QString (js "usb"); QString (js "hdmi")]) fresh_server
  = Some (fresh_server,
          {| code := 400;
             body := ErrorBody "Keyword contains invalid characters" |}).
Proof. vm_compute. reflexivity. Qed.

(** [?keyword[toString]=x], read by the extended parser. *)
Example handleScrape_no_toString :
  handleScrape serving (new_AmazonHttpClient []) (λ _, [full_item]) id
    (QObject false) fresh_server
  = Some ({| service := fresh; stderr := [Error no_primitive] |},
          {| code := 503; body := ErrorBody "Internal server error" |}).
Proof. vm_compute. reflexivity. Qed.
